(** * Verification of the RLCP image converter (src/src/index.ts)

    Shallow embedding of the conversion loop of [main], of the lock file,
    of [addReplacement], of the reference rewriter [updateReferences]
    (with [escapeRegExp] and the boundary regex) and of the setup phase of
    [main] ([loadConfig], [loadLockFile], [ensureGitIgnore]). *)

From stdpp Require Import base gmap sets list strings.
From Stdlib Require Import Ascii String Sorted.



(* ------------------------------------------------------------------ *)
(** ** Paths *)

(** A path relative to [process.cwd()], split the way the code splits it
    with [path.dirname], [path.basename(file, path.extname(file))] and
    [path.extname] (the extension is kept without its dot).  Paths are
    the normalised relative paths that [fast-glob] and [path.relative]
    return. *)
Record path := mkPath { dir : list string; stem : string; ext : string }.

#[global] Instance path_eq_dec : EqDecision path.
Proof. solve_decision. Defined.

#[global] Instance path_countable : Countable path.
Proof.
  refine (inj_countable' (fun p => (dir p, stem p, ext p))
            (fun '(d, s, e) => mkPath d s e) _).
  by intros [].
Defined.

(** The last segment of the path: [path.basename(file)]. *)
Definition file_name (p : path) : string :=
  if String.eqb (ext p) "" then stem p
  else String.append (stem p) (String.append "." (ext p)).

(** The path as the string the code handles. *)
Definition render (p : path) : string :=
  String.concat "/" (dir p ++ [file_name p]).

(** JavaScript truthiness of a path string ([if (lockData.conversions[file])]). *)
Definition truthy (p : path) : bool := negb (String.eqb (render p) "").

(** [path.relative(from, to)] on normalised segment lists: drop the common
    prefix, climb out of the rest of [from], descend into the rest of [to]. *)
Fixpoint rel_segs (from to : list string) : list string :=
  match from, to with
  | f :: fs, t :: ts =>
      if String.eqb f t then rel_segs fs ts
      else map (fun _ => "..") (f :: fs) ++ t :: ts
  | [], ts => ts
  | fs, [] => map (fun _ => "..") fs
  end.

(** [path.relative(dirPath, file)] rendered as a string. *)
Definition rel_str (from : list string) (p : path) : string :=
  String.concat "/" (rel_segs from (dir p ++ [file_name p])).

(** [path.normalize] of a relative segment list: [.] and empty segments
    vanish, [..] removes the previous segment (and is kept at the front). *)
Fixpoint norm_rev (acc : list string) (l : list string) : list string :=
  match l with
  | [] => acc
  | s :: l' =>
      if String.eqb s "" || String.eqb s "." then norm_rev acc l'
      else if String.eqb s ".." then
        match acc with
        | a :: acc' => if String.eqb a ".." then norm_rev (s :: acc) l'
                       else norm_rev acc' l'
        | [] => norm_rev [s] l'
        end
      else norm_rev (s :: acc) l'
  end.

Definition norm (l : list string) : list string := rev (norm_rev [] l).

(** A normalised segment: not empty, not [.], not [..]. *)
Definition seg_ok (s : string) : bool :=
  negb (String.eqb s "" || String.eqb s "." || String.eqb s "..").

(** [dir] lies under the directory [root]. *)
Definition under (root : list string) (p : path) : bool :=
  bool_decide (root `prefix_of` dir p).

(** [p] lies below [root] by plain directory names (no [""], [.] or [..]
    after [root]): the paths a glob [root/**] lists. *)
Definition inside (root : list string) (p : path) : bool :=
  under root p && forallb seg_ok (drop (List.length root) (dir p)).

(* ------------------------------------------------------------------ *)
(** ** Configuration values used by the loop *)

Inductive format := Png | Jpeg | Jpg | Webp.

#[global] Instance format_eq_dec : EqDecision format.
Proof. solve_decision. Defined.

Definition format_name (f : format) : string :=
  match f with Png => "png" | Jpeg => "jpeg" | Jpg => "jpg" | Webp => "webp" end.

(** The extensions of the discovery glob [**/*.{png,jpg,jpeg,webp}]. *)
Definition image_ext (e : string) : bool :=
  String.eqb e "png" || String.eqb e "jpg" || String.eqb e "jpeg" || String.eqb e "webp".

Record settings := mkSettings {
  inputDir : list string;
  outputDir : list string;
  targetFormat : format;
  qualityValue : Z
}.

(** [originalFileDest = path.join(outputDir, path.relative(inputDir, file))]. *)
Definition originalFileDest (cf : settings) (file : path) : path :=
  mkPath (norm (outputDir cf ++ rel_segs (inputDir cf) (dir file)))
         (stem file) (ext file).

(** [finalNewPath = path.resolve(cwd, fileDir, fileName + "." + ext)]. *)
Definition finalNewPath (cf : settings) (file : path) : path :=
  mkPath (dir file) (stem file)
    (if bool_decide (targetFormat cf = Jpg) then "jpg"
     else format_name (targetFormat cf)).

(** [`${absoluteFilePath}.temp`]. *)
Definition temp_path (file : path) : path :=
  mkPath (dir file) (file_name file) "temp".

(* ------------------------------------------------------------------ *)
(** ** Run state and the per-candidate step *)

(** A replacement rule [{ oldRel, newRel }]. *)
Definition rule : Type := string * string.

(** The in-memory state threaded through the loop of [main]: the files on
    disk (the existence checks of [fs.pathExists] on file paths), the
    mutable [lockData.conversions] and the array [replacements]. *)
Record St := mkSt {
  st_fs : gset path;
  st_lock : gmap path path;
  st_rules : list rule
}.

Inductive disposition :=
  | ConvertNow | SkipAlreadyConverted | SkipGeneratedArtifact | SkipBackupExists.

#[global] Instance disposition_eq_dec : EqDecision disposition.
Proof. solve_decision. Defined.

(** State and exception monad: [None] is a thrown error, the state at the
    throw is kept (what the [catch] of the loop sees). *)
Definition M (A : Type) : Type := St -> option A * St.

Definition ret {A} (a : A) : M A := fun s => (Some a, s).
Definition bind {A B} (m : M A) (k : A -> M B) : M B :=
  fun s => match m s with
           | (Some a, s') => k a s'
           | (None, s') => (None, s')
           end.
Definition throw {A} : M A := fun s => (None, s).
Definition get : M St := fun s => (Some s, s).
Definition put (s : St) : M unit := fun _ => (Some tt, s).

Notation "x <- m ;; k" := (bind m (fun x => k))
  (at level 100, m at next level, right associativity).
Notation "m ;;; k" := (bind m (fun _ => k))
  (at level 100, right associativity).

Definition set_fs (fs : gset path) (s : St) : St := mkSt fs (st_lock s) (st_rules s).
Definition set_lock (k v : path) (s : St) : St :=
  mkSt (st_fs s) (<[k := v]> (st_lock s)) (st_rules s).
Definition push_rules (rs : list rule) (s : St) : St :=
  mkSt (st_fs s) (st_lock s) (st_rules s ++ rs).

(** [fs.pathExists] on a file path; it never throws. *)
Definition pathExists (p : path) : M bool :=
  s <- get ;; ret (bool_decide (p ∈ st_fs s)).

(** The rules pushed by [addReplacement(originalFile, targetFile, inputDir)]. *)
Definition replacement_rules (inputDir : list string) (originalFile targetFile : path)
  : list rule :=
  let oldRel := rel_str inputDir originalFile in
  let newRel := rel_str inputDir targetFile in
  (oldRel, newRel) ::
  (if String.eqb (render originalFile) oldRel then []
   else [(render originalFile, render targetFile)]).

Definition addReplacement (originalFile targetFile : path) (inputDir : list string)
  : M unit :=
  s <- get ;; put (push_rules (replacement_rules inputDir originalFile targetFile) s).

(** [lockData.conversions[file] = target]. *)
Definition write_lock (file target : path) : M unit :=
  s <- get ;; put (set_lock file target s).

Section Run.

(** External collaborators: whether the image codec succeeds in encoding
    a file, and whether the operating system lets [fs.move] move a file. *)
Variable codec_ok : gset path -> path -> format -> Z -> bool.
Variable move_ok : gset path -> path -> path -> bool.

(** [sharp(src).<format>({ quality }).toFile(dst)]: reads [src], writes
    [dst]; sharp refuses to write onto its own input. *)
Definition sharp_toFile (src dst : path) (f : format) (q : Z) : M unit :=
  s <- get ;;
  if codec_ok (st_fs s) src f q && bool_decide (src ∈ st_fs s) && bool_decide (src ≠ dst)
  then put (set_fs ({[dst]} ∪ st_fs s) s)
  else throw.

(** [fs.move(src, dst, { overwrite: true })]: fails when the source is
    missing or equal to the destination. *)
Definition fs_move (src dst : path) : M unit :=
  s <- get ;;
  if move_ok (st_fs s) src dst && bool_decide (src ∈ st_fs s) && bool_decide (src ≠ dst)
  then put (set_fs ({[dst]} ∪ (st_fs s ∖ {[src]})) s)
  else throw.

(** Steps 1-3 of the loop body and the bookkeeping after them. *)
Definition convert_candidate (cf : settings) (file : path) : M disposition :=
  sharp_toFile file (temp_path file) (targetFormat cf) (qualityValue cf) ;;;
  fs_move file (originalFileDest cf file) ;;;
  fs_move (temp_path file) (finalNewPath cf file) ;;;
  addReplacement file (finalNewPath cf file) (inputDir cf) ;;;
  write_lock file (finalNewPath cf file) ;;;
  ret ConvertNow.

(** The checks after the lock-file check: generated file, backup exists,
    otherwise convert.  [lockValues] is the set built before the loop. *)
Definition check_after_lock (cf : settings) (lockValues : gset path) (file : path)
  : M disposition :=
  if bool_decide (file ∈ lockValues) then ret SkipGeneratedArtifact
  else
    b <- pathExists (originalFileDest cf file) ;;
    if b then
      f <- pathExists (finalNewPath cf file) ;;
      if f then
        addReplacement file (finalNewPath cf file) (inputDir cf) ;;;
        write_lock file (finalNewPath cf file) ;;;
        ret SkipBackupExists
      else convert_candidate cf file
    else convert_candidate cf file.

(** The body of the [for (const file of files)] loop, up to its [catch]. *)
Definition process_file (cf : settings) (lockValues : gset path) (file : path)
  : M disposition :=
  s <- get ;;
  match st_lock s !! file with
  | Some locked =>
      if truthy locked then
        e <- pathExists locked ;;
        if e then
          addReplacement file locked (inputDir cf) ;;;
          ret SkipAlreadyConverted
        else check_after_lock cf lockValues file
      else check_after_lock cf lockValues file
  | None => check_after_lock cf lockValues file
  end.

(** What the loop records per candidate: the branch taken, or the caught
    failure ([failCount++]). *)
Inductive outcome := Done (d : disposition) | Failed.

#[global] Instance outcome_eq_dec : EqDecision outcome.
Proof. solve_decision. Defined.

Fixpoint run_loop (cf : settings) (lockValues : gset path) (files : list path) (s : St)
  : list (path * outcome) * St :=
  match files with
  | [] => ([], s)
  | file :: rest =>
      let '(r, s') := process_file cf lockValues file s in
      let o := match r with Some d => Done d | None => Failed end in
      let '(os, s'') := run_loop cf lockValues rest s' in
      ((file, o) :: os, s'')
  end.

(** [new Set(Object.values(lockData.conversions))]. *)
Definition lock_values (l : gmap path path) : gset path :=
  list_to_set (snd <$> map_to_list l).

Definition successCount (os : list (path * outcome)) : nat :=
  List.length (filter (fun o => snd o = Done ConvertNow) os).
Definition failCount (os : list (path * outcome)) : nat :=
  List.length (filter (fun o => snd o = Failed) os).

End Run.

(* ------------------------------------------------------------------ *)
(** ** The reference rewriter: [escapeRegExp], the boundary regex and
    [String.prototype.replace] with a global regex *)

(** File contents and rule strings as sequences of characters. *)
Definition text : Type := list ascii.

Definition is_regex_meta (a : ascii) : bool :=
  existsb (fun b => Ascii.eqb a b) (list_ascii_of_string ".*+?^${}()|[]\").

(** [string.replace(/[.*+?^${}()|[\]\\]/g, "\\$&")]. *)
Fixpoint escapeRegExp (s : text) : text :=
  match s with
  | [] => []
  | a :: s' =>
      if is_regex_meta a then "\"%char :: a :: escapeRegExp s' else a :: escapeRegExp s'
  end.

(** Reading an escaped pattern source back as the literal it matches:
    [\c] is the character [c], an unescaped metacharacter is not a literal. *)
Fixpoint pattern_literal (src : text) : option text :=
  match src with
  | [] => Some []
  | a :: src' =>
      if Ascii.eqb a "\"%char then
        match src' with
        | b :: src'' => cons b <$> pattern_literal src''
        | [] => None
        end
      else if is_regex_meta a then None
      else cons a <$> pattern_literal src'
  end.

(** The class [[\w\-.]]. *)
Definition word_hyphen_dot (a : ascii) : bool :=
  let n := nat_of_ascii a in
  (Nat.leb 48 n && Nat.leb n 57) || (Nat.leb 65 n && Nat.leb n 90) ||
  (Nat.leb 97 n && Nat.leb n 122) || Nat.eqb n 95 || Nat.eqb n 45 || Nat.eqb n 46.

(** The character [k] places before index [i], if any. *)
Definition char_before (s : text) (i k : nat) : option ascii :=
  if Nat.leb k i then nth_error s (i - k) else None.

(** The two lookbehinds [(?<![\w\-.])(?<![\w\-.]\/)] at index [i]. *)
Definition lookbehind_ok (s : text) (i : nat) : bool :=
  negb (match char_before s i 1 with Some a => word_hyphen_dot a | None => false end) &&
  negb (match char_before s i 1, char_before s i 2 with
        | Some a, Some b => Ascii.eqb a "/"%char && word_hyphen_dot b
        | _, _ => false
        end).

(** The literal [lit] starts at index [i] of [s]. *)
Definition occurs_at (lit s : text) (i : nat) : bool :=
  bool_decide (firstn (List.length lit) (skipn i s) = lit).

(** The regex [new RegExp(`(?<![\\w\\-.])(?<![\\w\\-.]\\/)${escapedOld}`, "g")]
    matches at index [i]. *)
Definition match_at (lit s : text) (i : nat) : bool :=
  lookbehind_ok s i && occurs_at lit s i.

(** [RegExpBuiltinExec]: the first index [>= i] where the regex matches. *)
Fixpoint search (lit s : text) (n i : nat) : option nat :=
  match n with
  | 0 => None
  | S n' => if match_at lit s i then Some i else search lit s n' (S i)
  end.

Definition first_match (lit s : text) (i : nat) : option nat :=
  search lit s (S (List.length s) - i) i.

(** The exec loop of [RegExp.prototype[@@replace]] for a global regex:
    the start indices of the successive matches ([lastIndex] moves to the
    end of each match, one further after an empty match). *)
Fixpoint exec_all (fuel : nat) (lit s : text) (lastIndex : nat) : list nat :=
  match fuel with
  | 0 => []
  | S fuel' =>
      match first_match lit s lastIndex with
      | None => []
      | Some j =>
          j :: exec_all fuel' lit s
                 (if Nat.eqb (List.length lit) 0 then S j else j + List.length lit)
      end
  end.

Definition regex_matches (lit s : text) : list nat :=
  exec_all (S (List.length s)) lit s 0.

(** [GetSubstitution] for a regex without capture groups. *)
Fixpoint get_substitution (matched s : text) (pos : nat) (repl : text) : text :=
  match repl with
  | "$"%char :: "$"%char :: r => "$"%char :: get_substitution matched s pos r
  | "$"%char :: "&"%char :: r => matched ++ get_substitution matched s pos r
  | "$"%char :: "`"%char :: r => firstn pos s ++ get_substitution matched s pos r
  | "$"%char :: "'"%char :: r =>
      skipn (pos + List.length matched) s ++ get_substitution matched s pos r
  | a :: r => a :: get_substitution matched s pos r
  | [] => []
  end.

(** The accumulation loop of [RegExp.prototype[@@replace]]. *)
Fixpoint assemble (s lit repl : text) (next : nat) (ms : list nat) : text :=
  match ms with
  | [] => skipn next s
  | j :: ms' =>
      if Nat.ltb j next then assemble s lit repl next ms'
      else firstn (j - next) (skipn next s) ++
           get_substitution (firstn (List.length lit) (skipn j s)) s j repl ++
           assemble s lit repl (j + List.length lit) ms'
  end.

(** [content.replace(regex, newRel)] for the regex compiled from [src]. *)
Definition js_replace (src repl s : text) : text :=
  match pattern_literal src with
  | Some lit => assemble s lit repl 0 (regex_matches lit s)
  | None => s
  end.

(** [regex.test(content)] on a fresh regex ([lastIndex] is 0). *)
Definition js_test (src s : text) : bool :=
  match pattern_literal src with
  | Some lit => bool_decide (is_Some (first_match lit s 0))
  | None => false
  end.

(** The inner [for (const { oldRel, newRel } of replacements)] loop on one
    file: the new content and [hasChanges]. *)
Fixpoint apply_rules (rules : list rule) (content : text) (hasChanges : bool)
  : text * bool :=
  match rules with
  | [] => (content, hasChanges)
  | (oldRel, newRel) :: rest =>
      let src := escapeRegExp (list_ascii_of_string oldRel) in
      if js_test src content
      then apply_rules rest (js_replace src (list_ascii_of_string newRel) content) true
      else apply_rules rest content hasChanges
  end.

(** [replacements.sort((a, b) => b.oldRel.length - a.oldRel.length)]:
    a stable sort, longest [oldRel] first. *)
Fixpoint insert_by_len (r : rule) (l : list rule) : list rule :=
  match l with
  | [] => [r]
  | r' :: l' =>
      if Nat.leb (String.length (fst r')) (String.length (fst r)) then r :: l
      else r' :: insert_by_len r l'
  end.

Fixpoint sort_rules (l : list rule) : list rule :=
  match l with
  | [] => []
  | r :: l' => insert_by_len r (sort_rules l')
  end.

(** The rewrite of one file's content by [updateReferences]. *)
Definition rewrite_content (replacements : list rule) (content : text) : text * bool :=
  apply_rules (sort_rules replacements) content false.

(* ------------------------------------------------------------------ *)
(** ** Strings of the setup phase *)

Fixpoint split_acc (c : ascii) (l cur : list ascii) : list (list ascii) :=
  match l with
  | [] => [rev cur]
  | a :: l' => if Ascii.eqb a c then rev cur :: split_acc c l' [] else split_acc c l' (a :: cur)
  end.

(** [s.split(c)]. *)
Definition split_on (c : ascii) (s : string) : list string :=
  map string_of_list_ascii (split_acc c (list_ascii_of_string s) []).

(** The white space and line terminators of [String.prototype.trim] among
    the characters U+0000 to U+00FF a character of the model stands for:
    TAB, LF, VT, FF, CR, SPACE and NO-BREAK SPACE (U+00A0). *)
Definition is_space (a : ascii) : bool :=
  let n := nat_of_ascii a in
  (Nat.leb 9 n && Nat.leb n 13) || Nat.eqb n 32 || Nat.eqb n 160.

Fixpoint drop_space (l : list ascii) : list ascii :=
  match l with
  | a :: l' => if is_space a then drop_space l' else l
  | [] => []
  end.

(** [s.trim()]. *)
Definition trim (s : string) : string :=
  string_of_list_ascii (rev (drop_space (rev (drop_space (list_ascii_of_string s))))).

Definition ends_with_newline (s : string) : bool :=
  match rev (list_ascii_of_string s) with
  | a :: _ => Ascii.eqb a "010"%char
  | [] => false
  end.

(** A directory string of the configuration, resolved against the working
    directory and normalised as [path.resolve] does.  Paths are kept
    relative to the working directory: a leading [/] is dropped, so an
    absolute path is read as relative to it. *)
Definition parse_dir (s : string) : list string := norm (split_on "/"%char s).

(** JavaScript truthiness of an optional string field. *)
Definition str_truthy (o : option string) : bool :=
  match o with Some s => negb (String.eqb s "") | None => false end.

(* ------------------------------------------------------------------ *)
(** ** The world [main] runs in *)

Record config := mkConfig {
  input : option string;
  output : option string;
  blacklists : list string;
  file_size : option string;
  preferred_type : option string;
  working_directory : option string
}.

(** A JSON file in the working directory: absent, present but not
    readable as JSON, or holding a value. *)
Inductive stored (A : Type) := Absent | Corrupt | Stored (a : A).
Arguments Absent {A}.
Arguments Corrupt {A}.
Arguments Stored {A} a.

(** [rlcp.config.json], [rlcp.lock] (its [conversions] map), [.gitignore],
    the image-side files, directories that hold no file, and the text
    files that [updateReferences] may rewrite.  [w_config] is the parsed
    configuration [loadConfig] reads; the text of [rlcp.config.json], which
    the glob of [updateReferences] can match, is not linked to it, so a
    statement about a later run takes the configuration that run reads as
    a parameter. *)
Record world := mkWorld {
  w_config : stored config;
  w_lockfile : stored (gmap path path);
  w_gitignore : option string;
  w_files : gset path;
  w_dirs : gset (list string);
  w_texts : gmap path string
}.

(** [fs.pathExists] on a directory.  A regular file at [d] is not counted:
    the model only asks this of directory paths. *)
Definition dir_exists (w : world) (d : list string) : bool :=
  bool_decide (d = []) || bool_decide (d ∈ w_dirs w) ||
  existsb (fun f => bool_decide (d `prefix_of` dir f)) (elements (w_files w)) ||
  existsb (fun f => bool_decide (d `prefix_of` dir f)) (map fst (map_to_list (w_texts w))).

Inductive quality := Small | Smallest.

#[global] Instance quality_eq_dec : EqDecision quality.
Proof. solve_decision. Defined.

(** What [prompts(questions)] answers; [None] is a missing answer. *)
Record response := mkResponse {
  r_format : option format;
  r_quality : option quality;
  r_working_directory : option string
}.

Definition parse_format (s : string) : option format :=
  if String.eqb s "png" then Some Png
  else if String.eqb s "jpeg" then Some Jpeg
  else if String.eqb s "jpg" then Some Jpg
  else if String.eqb s "webp" then Some Webp
  else None.

Definition parse_quality (s : string) : option quality :=
  if String.eqb s "small" then Some Small
  else if String.eqb s "smallest" then Some Smallest
  else None.

(** The checks of [loadConfig]; [None] is [process.exit(1)]. *)
Definition loadConfig (w : world) : option config :=
  match w_config w with
  | Absent | Corrupt => None
  | Stored c =>
      if negb (str_truthy (input c)) || negb (str_truthy (output c)) then None
      else if str_truthy (file_size c) &&
              negb (bool_decide (is_Some (parse_quality (default "" (file_size c)))))
      then None
      else if str_truthy (preferred_type c) &&
              negb (bool_decide (is_Some (parse_format (default "" (preferred_type c)))))
      then None
      else Some c
  end.

(** [loadLockFile]: an absent or unreadable lock file gives [{}]. *)
Definition loadLockFile (w : world) : gmap path path :=
  match w_lockfile w with Stored l => l | _ => ∅ end.

(** [build the table from lockData]: the loop at the end of [main].  The
    entries come in the order of [map_to_list], not in the insertion order
    of [Object.entries]; the stable sort of [updateReferences] keeps that
    order among rules of equal length. *)
Definition build_table (inputDir : list string) (lock : gmap path path) : list rule :=
  flat_map (fun kv => replacement_rules inputDir kv.1 kv.2) (map_to_list lock).

(** The files [updateReferences] globs: [**/*.{html,js,jsx,ts,tsx,css,scss,json,md}]
    under the working directory, without dot files and without the
    ignored directories. *)
Definition text_ext (e : string) : bool :=
  existsb (String.eqb e) ["html"; "js"; "jsx"; "ts"; "tsx"; "css"; "scss"; "json"; "md"].

Definition starts_with_dot (s : string) : bool :=
  match s with String a _ => Ascii.eqb a "."%char | EmptyString => false end.

Definition text_ignored (wd : list string) (p : path) : bool :=
  let rel := drop (List.length wd) (dir p) in
  existsb (fun s => String.eqb s "node_modules" || String.eqb s "dist" || String.eqb s "build") rel ||
  existsb starts_with_dot (rel ++ [file_name p]).

Definition text_files (wd : list string) (texts : gmap path string) : list path :=
  filter (fun p => under wd p && text_ext (ext p) && negb (text_ignored wd p))
    (map fst (map_to_list texts)).

Section Main.

(** External collaborators and I/O outcomes. *)
Variable codec_ok : gset path -> path -> format -> Z -> bool.
Variable move_ok : gset path -> path -> path -> bool.
(** [glob(pattern, { ignore: blacklists, cwd })] for the image pattern under
    the input directory. *)
Variable discover : list string -> list string -> gset path -> list path.
Variable prompt : response.
Variable gitignore_read_ok gitignore_write_ok lock_write_ok : bool.
Variable text_read_ok text_write_ok : path -> bool.

(** [ensureGitIgnore(outputDir)]; read and write errors are caught. *)
Definition ensureGitIgnore (outputDir : string) (w : world) : world :=
  let read :=
    match w_gitignore w with
    | Some content => if gitignore_read_ok then Some content else None
    | None => Some ""
    end in
  match read with
  | None => w
  | Some content =>
      let lines := map trim (split_on "010"%char content) in
      let isIgnored :=
        existsb (fun line =>
          String.eqb line outputDir ||
          String.eqb line (String.append "/" outputDir) ||
          String.eqb line (String.append outputDir "/") ||
          String.eqb line (String.append "/" (String.append outputDir "/"))) lines in
      if isIgnored then w
      else
        let nl := String "010"%char EmptyString in
        let newContent :=
          if ends_with_newline content || String.eqb content ""
          then String.append content (String.append outputDir nl)
          else String.append content (String.append nl (String.append outputDir nl)) in
        if gitignore_write_ok
        then mkWorld (w_config w) (w_lockfile w) (Some newContent) (w_files w)
               (w_dirs w) (w_texts w)
        else w
  end.

(** [updateReferences(workingDir, replacements)]: per-file read and write
    errors are caught. *)
Definition update_file (replacements : list rule) (w : world) (f : path) : world :=
  if text_read_ok f then
    match w_texts w !! f with
    | Some content =>
        let '(content', hasChanges) :=
          rewrite_content replacements (list_ascii_of_string content) in
        if hasChanges && text_write_ok f
        then mkWorld (w_config w) (w_lockfile w) (w_gitignore w) (w_files w) (w_dirs w)
               (<[f := string_of_list_ascii content']> (w_texts w))
        else w
    | None => w
    end
  else w.

Definition updateReferences (workingDir : list string) (replacements : list rule)
  (w : world) : world :=
  fold_left (update_file replacements) (text_files workingDir (w_texts w)) w.

(** The end of [main] after the loop: the rules collected by the loop are
    dropped ([replacements.length = 0]) and rebuilt from the lock data, the
    lock file is saved, and the references are updated. *)
Definition finish_run (cf : settings) (workingDir : option string) (s : St) (w : world)
  : world :=
  let table := build_table (inputDir cf) (st_lock s) in
  let w1 := mkWorld (w_config w) (w_lockfile w) (w_gitignore w) (st_fs s) (w_dirs w)
              (w_texts w) in
  let w2 := if lock_write_ok
            then mkWorld (w_config w1) (Stored (st_lock s)) (w_gitignore w1) (w_files w1)
                   (w_dirs w1) (w_texts w1)
            else w1 in
  if str_truthy workingDir && negb (bool_decide (table = [])) &&
     dir_exists w2 (parse_dir (default "" workingDir))
  then updateReferences (parse_dir (default "" workingDir)) table w2
  else w2.

(** How a run ends: [process.exit(1)] or a [return] from [main]. *)
Inductive status := Exited | Returned.

(** [main()]. *)
Definition main (w : world) : status * world :=
  match loadConfig w with
  | None => (Exited, w)
  | Some config =>
      let lockData := loadLockFile w in
      let lockValues := lock_values lockData in
      let inputDir := default "" (input config) in
      let outputDir := default "" (output config) in
      let w1 := ensureGitIgnore outputDir w in
      if negb (dir_exists w1 (parse_dir inputDir)) then (Exited, w1)
      else
        let files := discover (blacklists config) (parse_dir inputDir) (w_files w1) in
        match files with
        | [] => (Returned, w1)
        | _ :: _ =>
            let targetFormat :=
              if str_truthy (preferred_type config)
              then parse_format (default "" (preferred_type config)) else None in
            let qualitySetting :=
              if str_truthy (file_size config)
              then parse_quality (default "" (file_size config)) else None in
            let workingDir :=
              if str_truthy (working_directory config) then working_directory config
              else None in
            let asked := bool_decide (targetFormat = None) ||
                         bool_decide (qualitySetting = None) ||
                         bool_decide (workingDir = None) in
            let cancelled :=
              asked &&
              ((bool_decide (targetFormat = None) && bool_decide (r_format prompt = None)) ||
               (bool_decide (qualitySetting = None) && bool_decide (r_quality prompt = None)) ||
               (bool_decide (workingDir = None) &&
                bool_decide (r_working_directory prompt = None))) in
            if cancelled then (Returned, w1)
            else
              let fmt := match targetFormat with
                         | Some f => Some f
                         | None => if asked then r_format prompt else None
                         end in
              let qual := match qualitySetting with
                          | Some q => Some q
                          | None => if asked then r_quality prompt else None
                          end in
              let wd := match workingDir with
                        | Some d => Some d
                        | None => if asked then r_working_directory prompt else None
                        end in
              match fmt with
              | None => (Returned, w1) (* unreachable: cancelled above *)
              | Some f =>
                  let qualityValue := if bool_decide (qual = Some Smallest) then 60%Z else 80%Z in
                  let cf := mkSettings (parse_dir inputDir) (parse_dir outputDir) f qualityValue in
                  let '(_, s) := run_loop codec_ok move_ok cf lockValues files
                                   (mkSt (w_files w1) lockData []) in
                  (Returned, finish_run cf wd s w1)
              end
        end
  end.

End Main.


(** Concrete inputs: the spec's scenario [assets/icons/logo.png] with input
    root [public], output root [temp_public] and format [webp]. *)
Definition ex_cf : settings := mkSettings ["public"] ["temp_public"] Webp 80.
Definition ex_png : path := mkPath ["public"; "icons"] "logo" "png".
Definition ex_webp : path := mkPath ["public"; "icons"] "logo" "webp".
Definition ex_backup : path := mkPath ["temp_public"; "icons"] "logo" "png".
Definition codec_always : gset path -> path -> format -> Z -> bool := fun _ _ _ _ => true.
Definition codec_never : gset path -> path -> format -> Z -> bool := fun _ _ _ _ => false.
Definition move_always : gset path -> path -> path -> bool := fun _ _ _ => true.

(** A discovery that lists the image files below the input directory by
    plain directory names (no blacklist), in the order of [elements]. *)
Definition discover_glob (bl : list string) (inp : list string) (fs : gset path) : list path :=
  filter (fun p => inside inp p && image_ext (ext p)) (elements fs).
Definition ex_config : config :=
  mkConfig (Some "public") (Some "temp_public") [] None (Some "webp") None.
Definition ex_prompt : response := mkResponse None None None.
Definition text_always : path -> bool := fun _ => true.
(** A valid configuration whose input directory does not exist, no [.gitignore]. *)
Definition ex_world_nodir : world := mkWorld (Stored ex_config) Absent None ∅ ∅ ∅.
(** An existing but image-free input directory, a lock file with an entry
    of an earlier run, and a text file that mentions the old name. *)
Definition ex_index : path := mkPath [] "index" "html".
Definition ex_world_noimg : world :=
  mkWorld (Stored ex_config) (Stored {[ex_png := ex_webp]}) None ∅ {[["public"]]}
    {[ex_index := "<img src='icons/logo.png'>"]}.

(** Proof-side predicates for two consecutive runs: a file is covered by
    the lock data when its lock entry points to an existing file or when
    it is a lock value; [run_inv] is the invariant of the first run's loop. *)
Definition covered (fs : gset path) (lock : gmap path path) (p : path) : Prop :=
  (exists T, lock !! p = Some T /\ T ∈ fs) \/ p ∈ lock_values lock.

Definition run_inv (visible : list string -> path -> bool) (bl : list string) (cf : settings)
  (D : list path) (fs0 : gset path) (lock0 : gmap path path)
  (todo : list path) (done : list (path * outcome))
  (fs : gset path) (lock : gmap path path) : Prop :=
  (forall p, p ∈ fs -> inside (inputDir cf) p = true -> image_ext (ext p) = true ->
     visible bl p = true -> p ∈ todo \/ covered fs lock p) /\
  (forall k T, lock !! k = Some T -> T ∈ lock_values lock0 \/ finalNewPath cf T = T) /\
  (forall k v, lock0 !! k = Some v -> v ∈ fs0 -> v ∈ fs /\ lock !! k = Some v) /\
  (forall c, (c, Done ConvertNow) ∈ done ->
     lock !! c = Some (finalNewPath cf c) /\
     (finalNewPath cf c = c -> c ∈ fs) /\ (finalNewPath cf c <> c -> c ∉ fs)) /\
  NoDup (map fst done ++ todo) /\
  (forall c, c ∈ map fst done ++ todo -> c ∈ D).

(** A backup root beside the working directory. *)
Definition ex_cf_up : settings := mkSettings ["public"] [".."; "backup"] Webp 80.

(** Evaluates a decidable proposition on concrete data. *)
Ltac decide_by_eval :=
  match goal with |- ?P => apply (bool_decide_eq_true_1 P); vm_compute; reflexivity end.

(** Further concrete inputs: a mover that always fails, a same-format
    target, prompt answers, a configuration that sets every option, and a
    world with an earlier conversion, an image to convert, a [.gitignore]
    without a trailing newline and a text file. *)
Definition move_never : gset path -> path -> path -> bool := fun _ _ _ => false.
Definition ex_cf_png : settings := mkSettings ["public"] ["temp_public"] Png 80.
Definition ex_answers : response := mkResponse (Some Webp) (Some Small) (Some ".").
Definition ex_full_config : config :=
  mkConfig (Some "public") (Some "temp_public") [] (Some "small") (Some "webp") (Some ".").
Definition ex_old_png : path := mkPath ["public"] "old" "png".
Definition ex_old_webp : path := mkPath ["public"] "old" "webp".
Definition ex_world_run : world :=
  mkWorld (Stored ex_config) (Stored {[ex_old_png := ex_old_webp]}) (Some "node_modules")
    {[ex_png; ex_old_webp]} ∅ {[ex_index := "<img src='icons/logo.png'>"]}.
Definition ex_world_full : world :=
  mkWorld (Stored ex_full_config) Absent None {[ex_png]} ∅ ∅.

(** The sort key of [updateReferences]: [oldRel.length]. *)
Definition rule_len (r : rule) : nat := String.length (fst r).

(* ================================================================== *)
(** * Properties *)

Section StepLemmas.

Variable codec_ok : gset path -> path -> format -> Z -> bool.
Variable move_ok : gset path -> path -> path -> bool.

Lemma process_file_locked cf vals c (s : St) T :
  st_lock s !! c = Some T -> truthy T = true -> T ∈ st_fs s ->
  process_file codec_ok move_ok cf vals c s =
    (Some SkipAlreadyConverted, push_rules (replacement_rules (inputDir cf) c T) s).
Proof.
  intros Hl Ht Hin. unfold process_file, bind, get, pathExists, ret, addReplacement, put.
  cbn. rewrite Hl, Ht. rewrite bool_decide_eq_true_2 by done. reflexivity.
Qed.

Lemma process_file_fallthrough cf vals c (s : St) :
  (forall T, st_lock s !! c = Some T -> truthy T = true -> T ∉ st_fs s) ->
  process_file codec_ok move_ok cf vals c s = check_after_lock codec_ok move_ok cf vals c s.
Proof.
  intros H. unfold process_file, bind, get at 1. cbn.
  destruct (st_lock s !! c) as [T|] eqn:Hl; [|reflexivity].
  destruct (truthy T) eqn:Ht; [|reflexivity].
  unfold pathExists, bind, get, ret. cbn.
  rewrite bool_decide_eq_false_2 by (apply H; done). reflexivity.
Qed.

Lemma check_generated cf vals c (s : St) :
  c ∈ vals ->
  check_after_lock codec_ok move_ok cf vals c s = (Some SkipGeneratedArtifact, s).
Proof.
  intros H. unfold check_after_lock. rewrite bool_decide_eq_true_2 by done. reflexivity.
Qed.

Lemma check_backup cf vals c (s : St) :
  c ∉ vals -> originalFileDest cf c ∈ st_fs s -> finalNewPath cf c ∈ st_fs s ->
  check_after_lock codec_ok move_ok cf vals c s =
    (Some SkipBackupExists,
     set_lock c (finalNewPath cf c)
       (push_rules (replacement_rules (inputDir cf) c (finalNewPath cf c)) s)).
Proof.
  intros Hv Hd Hf. unfold check_after_lock. rewrite bool_decide_eq_false_2 by done.
  unfold pathExists, bind, get, ret, addReplacement, write_lock, put. cbn.
  rewrite bool_decide_eq_true_2 by done. cbn.
  rewrite bool_decide_eq_true_2 by done. reflexivity.
Qed.

Lemma check_convert cf vals c (s : St) :
  c ∉ vals -> ~ (originalFileDest cf c ∈ st_fs s /\ finalNewPath cf c ∈ st_fs s) ->
  check_after_lock codec_ok move_ok cf vals c s = convert_candidate codec_ok move_ok cf c s.
Proof.
  intros Hv Hn. unfold check_after_lock. rewrite bool_decide_eq_false_2 by done.
  unfold pathExists, bind, get, ret. cbn.
  destruct (bool_decide (originalFileDest cf c ∈ st_fs s)) eqn:Hd; [|reflexivity].
  cbn. rewrite bool_decide_eq_false_2; [reflexivity|].
  apply bool_decide_eq_true_1 in Hd. tauto.
Qed.

(** A failed conversion leaves the lock data and the rules as they were. *)
Lemma convert_candidate_fail cf c (s s' : St) :
  convert_candidate codec_ok move_ok cf c s = (None, s') ->
  st_lock s' = st_lock s /\ st_rules s' = st_rules s.
Proof.
  unfold convert_candidate, sharp_toFile, fs_move, bind, get, put, throw. cbn.
  repeat (case_match; cbn); intros Heq; simplify_eq; done.
Qed.

(** A conversion that goes through. *)
Lemma convert_candidate_ok cf c (s s' : St) d :
  convert_candidate codec_ok move_ok cf c s = (Some d, s') ->
  d = ConvertNow /\ c ∈ st_fs s /\ c <> originalFileDest cf c /\
  st_fs s' = {[finalNewPath cf c]} ∪
               (({[originalFileDest cf c]} ∪ (({[temp_path c]} ∪ st_fs s) ∖ {[c]}))
                ∖ {[temp_path c]}) /\
  st_lock s' = <[c := finalNewPath cf c]> (st_lock s) /\
  st_rules s' = st_rules s ++ replacement_rules (inputDir cf) c (finalNewPath cf c).
Proof.
  unfold convert_candidate, sharp_toFile, fs_move, bind, get, put, throw,
    addReplacement, write_lock, ret. cbn.
  repeat (case_match; cbn; try discriminate).
  intros [= <- <-]. cbn.
  repeat match goal with
  | H : (_ && _)%bool = true |- _ => apply andb_prop in H as [? ?]
  | H : bool_decide _ = true |- _ => apply bool_decide_eq_true_1 in H
  end.
  cbn in *. simplify_eq. cbn. done.
Qed.

Lemma run_loop_cons cf vals c rest (s : St) :
  run_loop codec_ok move_ok cf vals (c :: rest) s =
    let '(r, s') := process_file codec_ok move_ok cf vals c s in
    let o := match r with Some d => Done d | None => Failed end in
    let '(os, s'') := run_loop codec_ok move_ok cf vals rest s' in
    ((c, o) :: os, s'').
Proof. reflexivity. Qed.

End StepLemmas.



Lemma elem_of_lock_values (l : gmap path path) v :
  v ∈ lock_values l <-> exists k, l !! k = Some v.
Proof.
  unfold lock_values. rewrite elem_of_list_to_set, list_elem_of_fmap. split.
  - intros [[k v'] [-> Hin]]. apply elem_of_map_to_list in Hin. eauto.
  - intros [k Hk]. exists (k, v). split; [done|]. by apply elem_of_map_to_list.
Qed.

Section Classification.

Variable codec_ok : gset path -> path -> format -> Z -> bool.
Variable move_ok : gset path -> path -> path -> bool.


(** C3: a candidate without a valid lock entry that is not a generated file,
    whose backup and final paths both exist, is skipped as [SkipBackupExists]:
    the files are untouched (no encoding), its rules are added and the lock
    data gets [LockState[c] = finalPath]. *)
Theorem backup_exists_repairs_lock cf (lockValues : gset path) c (s : St) :
  (forall T, st_lock s !! c = Some T -> truthy T = true -> T ∉ st_fs s) ->
  c ∉ lockValues ->
  originalFileDest cf c ∈ st_fs s -> finalNewPath cf c ∈ st_fs s ->
  let '(r, s') := process_file codec_ok move_ok cf lockValues c s in
  r = Some SkipBackupExists /\ st_fs s' = st_fs s /\
  st_lock s' = <[c := finalNewPath cf c]> (st_lock s) /\
  st_rules s' = st_rules s ++ replacement_rules (inputDir cf) c (finalNewPath cf c).
Proof.
  intros Hl Hv Hd Hf. rewrite process_file_fallthrough by done.
  rewrite check_backup by done. cbn. done.
Qed.

(** C5: when a candidate's processing throws (only the conversion branch
    can), the lock data and the rules are as before, the candidate is
    recorded as failed, [failCount] grows by one, and the loop goes on with
    the next candidate from the state left by the failure. *)
Theorem conversion_failure_isolated cf (lockValues : gset path) c rest (s s' : St) :
  process_file codec_ok move_ok cf lockValues c s = (None, s') ->
  process_file codec_ok move_ok cf lockValues c s = convert_candidate codec_ok move_ok cf c s /\
  st_lock s' = st_lock s /\ st_rules s' = st_rules s /\
  run_loop codec_ok move_ok cf lockValues (c :: rest) s =
    ((c, Failed) :: fst (run_loop codec_ok move_ok cf lockValues rest s'),
     snd (run_loop codec_ok move_ok cf lockValues rest s')) /\
  failCount (fst (run_loop codec_ok move_ok cf lockValues (c :: rest) s)) =
    S (failCount (fst (run_loop codec_ok move_ok cf lockValues rest s'))).
Proof.
  intros H.
  assert (Hc : process_file codec_ok move_ok cf lockValues c s =
               convert_candidate codec_ok move_ok cf c s).
  { destruct (st_lock s !! c) as [T|] eqn:Hl;
      [destruct (truthy T) eqn:Ht; [destruct (decide (T ∈ st_fs s)) as [Hin|Hout]|]|].
    - rewrite (process_file_locked codec_ok move_ok cf lockValues c s T) in H by done.
      discriminate.
    - rewrite process_file_fallthrough in H |- * by (intros T' ? ?; congruence).
      destruct (decide (c ∈ lockValues)).
      { rewrite check_generated in H by done. discriminate. }
      destruct (decide (originalFileDest cf c ∈ st_fs s /\ finalNewPath cf c ∈ st_fs s))
        as [[? ?]|Hn].
      { rewrite check_backup in H by done. discriminate. }
      by apply check_convert.
    - rewrite process_file_fallthrough in H |- * by (intros T' ? ?; congruence).
      destruct (decide (c ∈ lockValues)).
      { rewrite check_generated in H by done. discriminate. }
      destruct (decide (originalFileDest cf c ∈ st_fs s /\ finalNewPath cf c ∈ st_fs s))
        as [[? ?]|Hn].
      { rewrite check_backup in H by done. discriminate. }
      by apply check_convert.
    - rewrite process_file_fallthrough in H |- * by (intros T' ? ?; congruence).
      destruct (decide (c ∈ lockValues)).
      { rewrite check_generated in H by done. discriminate. }
      destruct (decide (originalFileDest cf c ∈ st_fs s /\ finalNewPath cf c ∈ st_fs s))
        as [[? ?]|Hn].
      { rewrite check_backup in H by done. discriminate. }
      by apply check_convert. }
  rewrite Hc in H. destruct (convert_candidate_fail _ _ _ _ _ _ H) as [Hl Hr].
  rewrite run_loop_cons, Hc, H.
  destruct (run_loop codec_ok move_ok cf lockValues rest s'). cbn. done.
Qed.

End Classification.

(** C4 (failing input): [logo.png] and a [logo.webp] already beside it,
    empty lock data.  Converting [logo.png] makes [logo.webp] a lock value,
    yet the loop checks the set taken before the loop and classifies
    [logo.webp], which has no lock entry of its own, as [ConvertNow]. *)
Theorem generated_check_uses_start_snapshot :
  let s0 := mkSt {[ex_png; ex_webp]} ∅ [] in
  let '(r1, s1) := process_file codec_always move_always ex_cf (lock_values ∅) ex_png s0 in
  r1 = Some ConvertNow /\
  st_lock s1 !! ex_png = Some ex_webp /\
  st_lock s1 !! ex_webp = None /\
  ex_webp ∈ lock_values (st_lock s1) /\
  fst (process_file codec_always move_always ex_cf (lock_values ∅) ex_webp s1)
    = Some ConvertNow.
Proof.
  cbv zeta.
  destruct (process_file codec_always move_always ex_cf (lock_values ∅) ex_png
              (mkSt {[ex_png; ex_webp]} ∅ [])) as [r1 s1] eqn:E.
  vm_compute in E. injection E as <- <-.
  split; [reflexivity|]. split; [reflexivity|]. split; [reflexivity|].
  split; [apply elem_of_lock_values; exists ex_png; reflexivity|reflexivity].
Qed.



Lemma backup_exists_repairs_lock_witness :
  let s := mkSt {[ex_png; ex_webp; ex_backup]} ∅ [] in
  let '(r, s') := process_file codec_always move_always ex_cf ∅ ex_png s in
  r = Some SkipBackupExists /\ st_fs s' = st_fs s /\
  st_lock s' = <[ex_png := finalNewPath ex_cf ex_png]> (st_lock s) /\
  st_rules s' = st_rules s ++ replacement_rules (inputDir ex_cf) ex_png (finalNewPath ex_cf ex_png).
Proof.
  apply (backup_exists_repairs_lock codec_always move_always ex_cf ∅ ex_png
           (mkSt {[ex_png; ex_webp; ex_backup]} ∅ [])).
  - intros T HT. discriminate HT.
  - apply not_elem_of_empty.
  - decide_by_eval.
  - decide_by_eval.
Defined.

Lemma conversion_failure_isolated_witness :
  let s := mkSt {[ex_png]} ∅ [] in
  process_file codec_never move_always ex_cf ∅ ex_png s =
    convert_candidate codec_never move_always ex_cf ex_png s /\
  st_lock s = st_lock s /\ st_rules s = st_rules s /\
  run_loop codec_never move_always ex_cf ∅ [ex_png; ex_webp] s =
    ((ex_png, Failed) :: fst (run_loop codec_never move_always ex_cf ∅ [ex_webp] s),
     snd (run_loop codec_never move_always ex_cf ∅ [ex_webp] s)) /\
  failCount (fst (run_loop codec_never move_always ex_cf ∅ [ex_png; ex_webp] s)) =
    S (failCount (fst (run_loop codec_never move_always ex_cf ∅ [ex_webp] s))).
Proof.
  apply (conversion_failure_isolated codec_never move_always ex_cf ∅ ex_png [ex_webp]
           (mkSt {[ex_png]} ∅ []) (mkSt {[ex_png]} ∅ [])).
  vm_compute. reflexivity.
Defined.

(** Ensuring the [.gitignore] entry changes nothing but [.gitignore]. *)
Lemma ensureGitIgnore_fields gro gwo out (w : world) :
  let w' := ensureGitIgnore gro gwo out w in
  w_config w' = w_config w /\ w_lockfile w' = w_lockfile w /\ w_files w' = w_files w /\
  w_dirs w' = w_dirs w /\ w_texts w' = w_texts w.
Proof. unfold ensureGitIgnore. cbv zeta. repeat case_match; cbn; auto. Qed.

Lemma dir_exists_ensureGitIgnore gro gwo out (w : world) d :
  dir_exists (ensureGitIgnore gro gwo out w) d = dir_exists w d.
Proof.
  destruct (ensureGitIgnore_fields gro gwo out w) as (_ & _ & Hf & Hd & Ht).
  unfold dir_exists. by rewrite Hf, Hd, Ht.
Qed.

Section MainRuns.

Variable codec_ok : gset path -> path -> format -> Z -> bool.
Variable move_ok : gset path -> path -> path -> bool.
Variable discover : list string -> list string -> gset path -> list path.
Variable prompt : response.
Variable gro gwo lwo : bool.
Variable tro two : path -> bool.

Local Abbreviation main_ := (main codec_ok move_ok discover prompt gro gwo lwo tro two).

(** C9 (amended): a missing, unreadable or invalid configuration ends the
    run with [process.exit(1)] on the world as it was.  A missing input
    directory also ends it with [process.exit(1)], but only after
    [ensureGitIgnore(outputDir)]: the [.gitignore] entry may have been
    written; the configuration, the lock file, the image files, the
    directories and the text files are untouched. *)
Theorem setup_errors_exit (w : world) :
  (loadConfig w = None -> main_ w = (Exited, w)) /\
  (forall c, loadConfig w = Some c ->
   dir_exists w (parse_dir (default "" (input c))) = false ->
   let w' := ensureGitIgnore gro gwo (default "" (output c)) w in
   main_ w = (Exited, w') /\
   w_config w' = w_config w /\ w_lockfile w' = w_lockfile w /\ w_files w' = w_files w /\
   w_dirs w' = w_dirs w /\ w_texts w' = w_texts w).
Proof.
  split.
  - intros H. unfold main_, main. by rewrite H.
  - intros c Hc Hd. cbv zeta. split; [|apply ensureGitIgnore_fields].
    unfold main_, main. rewrite Hc. cbv zeta.
    by rewrite dir_exists_ensureGitIgnore, Hd.
Qed.

(** C10: when discovery finds no image, [main] returns right after the
    discovery step: besides the [.gitignore] entry nothing is written, in
    particular not the lock file (whatever entries it holds) and no text
    file. *)
Theorem no_candidates_early_return (w : world) c :
  loadConfig w = Some c ->
  dir_exists w (parse_dir (default "" (input c))) = true ->
  discover (blacklists c) (parse_dir (default "" (input c))) (w_files w) = [] ->
  let '(st, w') := main_ w in
  st = Returned /\ w' = ensureGitIgnore gro gwo (default "" (output c)) w /\
  w_lockfile w' = w_lockfile w /\ w_texts w' = w_texts w /\ w_files w' = w_files w.
Proof.
  intros Hc Hd Hdisc.
  destruct (ensureGitIgnore_fields gro gwo (default "" (output c)) w)
    as (_ & Hl & Hf & _ & Ht).
  unfold main_, main. rewrite Hc. cbv zeta.
  rewrite dir_exists_ensureGitIgnore, Hd. cbn [negb]. rewrite Hf, Hdisc. auto.
Qed.

End MainRuns.

(** C9 (counterexample): a valid configuration whose input directory is
    missing ends the run with [process.exit(1)], but [.gitignore] has been
    created with the output directory in it. *)
Lemma setup_exit_writes_gitignore :
  let '(st, w') := main codec_always move_always discover_glob ex_prompt true true true
                     text_always text_always ex_world_nodir in
  st = Exited /\ w_gitignore ex_world_nodir = None /\
  w_gitignore w' = Some (String.append "temp_public" (String "010"%char EmptyString)).
Proof. vm_compute. repeat split. Qed.

Lemma no_candidates_early_return_witness :
  let '(st, w') := main codec_always move_always discover_glob ex_prompt true true true
                     text_always text_always ex_world_noimg in
  st = Returned /\ w' = ensureGitIgnore true true (default "" (output ex_config)) ex_world_noimg /\
  w_lockfile w' = w_lockfile ex_world_noimg /\ w_texts w' = w_texts ex_world_noimg /\
  w_files w' = w_files ex_world_noimg.
Proof.
  apply (no_candidates_early_return codec_always move_always discover_glob ex_prompt
           true true true text_always text_always ex_world_noimg ex_config).
  - vm_compute. reflexivity.
  - vm_compute. reflexivity.
  - vm_compute. reflexivity.
Defined.

Lemma elem_of_build_table inp (lock : gmap path path) (r : rule) :
  r ∈ build_table inp lock <->
  exists k t, lock !! k = Some t /\ r ∈ replacement_rules inp k t.
Proof.
  unfold build_table. rewrite list_elem_of_In, in_flat_map. split.
  - intros [[k t] [Hin Hr]]. apply list_elem_of_In, elem_of_map_to_list in Hin.
    exists k, t. split; [done|]. by apply list_elem_of_In.
  - intros (k & t & Hk & Hr). exists (k, t). split.
    + by apply list_elem_of_In, elem_of_map_to_list.
    + by apply list_elem_of_In.
Qed.

Lemma elem_of_replacement_rules inp k t (r : rule) :
  r ∈ replacement_rules inp k t <->
  r = (rel_str inp k, rel_str inp t) \/
  (render k <> rel_str inp k /\ r = (render k, render t)).
Proof.
  unfold replacement_rules. destruct (String.eqb_spec (render k) (rel_str inp k)) as [E|E].
  - rewrite list_elem_of_singleton. naive_solver.
  - rewrite elem_of_cons, list_elem_of_singleton. naive_solver.
Qed.

(** C6: the end of [main] uses the loop's state only through the files
    and the lock data (the rules pushed during the loop are dropped), and
    the table it passes to [updateReferences] holds, for every lock entry
    [original -> target], the rule between their input-root-relative
    paths, plus the rule between the paths as stored when the stored
    original differs from its input-root-relative path, and nothing else.
    No rule depends on the files on disk, so entries whose original is gone
    are covered. *)
Theorem rebuilt_table_from_lock (lwo : bool) (tro two : path -> bool)
  (inp : list string) (lock : gmap path path) :
  (forall cf wd (s s' : St) w, st_fs s = st_fs s' -> st_lock s = st_lock s' ->
   finish_run lwo tro two cf wd s w = finish_run lwo tro two cf wd s' w) /\
  (forall k t, lock !! k = Some t ->
   (rel_str inp k, rel_str inp t) ∈ build_table inp lock /\
   (render k <> rel_str inp k -> (render k, render t) ∈ build_table inp lock)) /\
  (forall r, r ∈ build_table inp lock ->
   exists k t, lock !! k = Some t /\
   (r = (rel_str inp k, rel_str inp t) \/
    (render k <> rel_str inp k /\ r = (render k, render t)))).
Proof.
  split; [|split].
  - intros cf wd s s' w Hf Hl. unfold finish_run. by rewrite Hf, Hl.
  - intros k t Hk. split.
    + apply elem_of_build_table. exists k, t. split; [done|].
      apply elem_of_replacement_rules. by left.
    + intros Hne. apply elem_of_build_table. exists k, t. split; [done|].
      apply elem_of_replacement_rules. by right.
  - intros r (k & t & Hk & Hr)%elem_of_build_table. exists k, t.
    split; [done|]. by apply elem_of_replacement_rules.
Qed.

(* ------------------------------------------------------------------ *)
(** ** The regex exec loop *)

Lemma escapeRegExp_literal (l : text) : pattern_literal (escapeRegExp l) = Some l.
Proof.
  induction l as [|a l IH]; [done|]. cbn [escapeRegExp].
  destruct (is_regex_meta a) eqn:Hm.
  - cbn [pattern_literal Ascii.eqb eqb]. rewrite IH. reflexivity.
  - cbn [pattern_literal]. destruct (Ascii.eqb a "\"%char) eqn:Hb.
    + apply Ascii.eqb_eq in Hb. subst. discriminate Hm.
    + rewrite Hm, IH. reflexivity.
Qed.

Lemma match_at_bound (lit s : text) k :
  lit <> [] -> match_at lit s k = true -> k + List.length lit <= List.length s.
Proof.
  intros Hne [_ Ho]%andb_prop. apply bool_decide_eq_true_1 in Ho.
  assert (Hl := f_equal (@List.length ascii) Ho).
  rewrite length_firstn, length_skipn in Hl.
  pose proof (Nat.le_min_r (List.length lit) (List.length s - k)).
  destruct lit; [done|]. cbn [List.length] in *. lia.
Qed.

Lemma search_some (lit s : text) n i j :
  search lit s n i = Some j ->
  i <= j /\ match_at lit s j = true /\ forall k, i <= k < j -> match_at lit s k = false.
Proof.
  revert i. induction n as [|n IH]; intros i; cbn; [done|].
  destruct (match_at lit s i) eqn:Hm.
  - intros [= <-]. split; [lia|]. split; [done|]. intros; lia.
  - intros H. destruct (IH _ H) as (H1 & H2 & H3). split; [lia|]. split; [done|].
    intros k Hk. destruct (decide (k = i)); [by subst|]. apply H3. lia.
Qed.

Lemma search_none (lit s : text) n i :
  search lit s n i = None -> forall k, i <= k < i + n -> match_at lit s k = false.
Proof.
  revert i. induction n as [|n IH]; intros i; cbn; [intros; lia|].
  destruct (match_at lit s i) eqn:Hm; [done|].
  intros H k Hk. destruct (decide (k = i)); [by subst|]. apply (IH (S i)); [done|lia].
Qed.



Lemma get_substitution_plain (matched s : text) pos (repl : text) :
  ~ In "$"%char repl -> get_substitution matched s pos repl = repl.
Proof.
  induction repl as [|a r IH]; intros Hd; [done|].
  assert (Ha : a <> "$"%char) by (intros ->; apply Hd; by left).
  assert (Hr : ~ In "$"%char r) by (intros ?; apply Hd; by right).
  rewrite <- (IH Hr) at 2.
  destruct a as [[] [] [] [] [] [] [] []]; try reflexivity. by destruct Ha.
Qed.

Lemma search_past_end (lit s : text) n i :
  lit <> [] -> List.length s <= i -> search lit s n i = None.
Proof.
  intros Hne. revert i. induction n as [|n IH]; intros i Hi; [done|]. cbn [search].
  destruct (match_at lit s i) eqn:Hm.
  - apply match_at_bound in Hm; [|done]. destruct lit; [done|]. cbn in Hm. lia.
  - apply IH. lia.
Qed.

Lemma regex_matches_self (lit : text) :
  lit <> [] -> regex_matches lit lit = [0].
Proof.
  intros Hne. unfold regex_matches. cbn [exec_all].
  assert (H0 : match_at lit lit 0 = true).
  { unfold match_at, occurs_at. cbn. rewrite firstn_all. by rewrite bool_decide_eq_true_2. }
  unfold first_match at 1. rewrite Nat.sub_0_r. cbn [search]. rewrite H0.
  destruct lit as [|a l]; [done|].
  change (List.length (a :: l)) with (S (List.length l)) in *.
  cbn [exec_all Nat.eqb Nat.add]. unfold first_match.
  rewrite search_past_end; [reflexivity|done|]. cbn. lia.
Qed.

Lemma first_match_none (lit s : text) :
  regex_matches lit s = [] -> first_match lit s 0 = None.
Proof.
  intros H. unfold regex_matches in H. cbn [exec_all] in H.
  by destruct (first_match lit s 0).
Qed.

Lemma js_replace_escaped (lit repl s : text) :
  js_replace (escapeRegExp lit) repl s = assemble s lit repl 0 (regex_matches lit s).
Proof. unfold js_replace. by rewrite escapeRegExp_literal. Qed.

Lemma js_test_escaped (lit s : text) :
  js_test (escapeRegExp lit) s = bool_decide (is_Some (first_match lit s 0)).
Proof. unfold js_test. by rewrite escapeRegExp_literal. Qed.

Lemma first_match_head (lit s : text) j ms :
  regex_matches lit s = j :: ms -> first_match lit s 0 = Some j.
Proof.
  intros H. unfold regex_matches in H. cbn [exec_all] in H.
  destruct (first_match lit s 0); congruence.
Qed.

Lemma insert_by_len_perm r l : insert_by_len r l ≡ₚ r :: l.
Proof.
  induction l as [|r' l IH]; cbn; [done|].
  case_match; [done|]. rewrite IH. constructor.
Qed.

Lemma sort_rules_perm (l : list rule) : sort_rules l ≡ₚ l.
Proof. induction l as [|r l IH]; cbn; [done|]. by rewrite insert_by_len_perm, IH. Qed.

Lemma insert_by_len_sorted r l :
  Sorted (fun a b => rule_len b <= rule_len a) l ->
  Sorted (fun a b => rule_len b <= rule_len a) (insert_by_len r l).
Proof.
  induction 1 as [|r' l Hs IH Hh]; cbn; [by repeat constructor|].
  destruct (Nat.leb_spec (String.length (fst r')) (String.length (fst r))) as [Hle|Hlt].
  - constructor; [by constructor|]. constructor. exact Hle.
  - constructor; [exact IH|].
    destruct l as [|r'' l]; cbn; [constructor; unfold rule_len; lia|].
    inversion Hh as [|? ? Hr'']; subst. unfold rule_len in *.
    destruct (Nat.leb (String.length (fst r'')) (String.length (fst r))); constructor; lia.
Qed.

Lemma sort_rules_sorted (l : list rule) :
  Sorted (fun a b => rule_len b <= rule_len a) (sort_rules l).
Proof. induction l; cbn; [constructor|by apply insert_by_len_sorted]. Qed.

Lemma strongly_sorted_before (l : list rule) (x y : rule) :
  StronglySorted (fun a b => rule_len b <= rule_len a) l -> In x l -> In y l ->
  String.length (fst y) < String.length (fst x) ->
  exists A B C, l = A ++ x :: B ++ y :: C.
Proof.
  induction l as [|a l IH]; intros Hs Hx Hy Hlt; [done|].
  apply StronglySorted_inv in Hs as [Hs Hall].
  destruct Hy as [<-|Hy].
  - exfalso. destruct Hx as [<-|Hx]; [lia|].
    rewrite List.Forall_forall in Hall. specialize (Hall x Hx). unfold rule_len in Hall. lia.
  - destruct Hx as [<-|Hx].
    + apply in_split in Hy as (B & C & ->). by exists [], B, C.
    + destruct (IH Hs Hx Hy Hlt) as (A & B & C & ->). by exists (a :: A), B, C.
Qed.

Lemma apply_rules_fst (rules : list rule) (s : text) h h' :
  fst (apply_rules rules s h) = fst (apply_rules rules s h').
Proof.
  revert s h h'. induction rules as [|[o n] rules IH]; intros s h h'; cbn; [done|].
  destruct (js_test _ _); [done|apply IH].
Qed.

Lemma apply_rules_cons_fst (r : rule) (rest : list rule) (s : text) h :
  fst (apply_rules (r :: rest) s h) = fst (apply_rules rest (fst (apply_rules [r] s h)) false).
Proof.
  destruct r as [o n]. cbn [apply_rules]. destruct (js_test _ _); cbn [fst]; apply apply_rules_fst.
Qed.

Lemma regex_matches_nil (lit s : text) :
  regex_matches lit s = [] <-> first_match lit s 0 = None.
Proof.
  unfold regex_matches. cbn [exec_all]. by destruct (first_match lit s 0).
Qed.

Lemma assemble_exec_length fuel (lit repl s : text) last :
  lit <> [] -> ~ In "$"%char repl -> last <= List.length s ->
  (Z.of_nat (List.length (assemble s lit repl last (exec_all fuel lit s last))) =
   Z.of_nat (List.length s) - Z.of_nat last +
   Z.of_nat (List.length (exec_all fuel lit s last)) *
     (Z.of_nat (List.length repl) - Z.of_nat (List.length lit)))%Z.
Proof.
  intros Hne Hd. revert last. induction fuel as [|f IH]; intros last Hlast; cbn [exec_all].
  - cbn [assemble List.length]. rewrite length_skipn. lia.
  - destruct (first_match lit s last) as [j|] eqn:Hf.
    + unfold first_match in Hf. apply search_some in Hf as (Hlj & Hmj & _).
      assert (Hb := match_at_bound _ _ _ Hne Hmj).
      assert (Hn : Nat.eqb (List.length lit) 0 = false) by (destruct lit; done).
      rewrite Hn. cbn [assemble List.length].
      replace (Nat.ltb j last) with false by (symmetry; apply Nat.ltb_ge; lia).
      rewrite !length_app, get_substitution_plain by done.
      rewrite length_firstn, length_skipn.
      specialize (IH (j + List.length lit) Hb). lia.
    + cbn [assemble List.length]. rewrite length_skipn. lia.
Qed.

Lemma assemble_changes (lit repl s : text) :
  lit <> [] -> ~ In "$"%char repl -> repl <> lit -> regex_matches lit s <> [] ->
  assemble s lit repl 0 (regex_matches lit s) <> s.
Proof.
  intros Hne Hd Hrl Hm Heq.
  destruct (decide (List.length repl = List.length lit)) as [Hlen|Hlen].
  - destruct (regex_matches lit s) as [|j ms] eqn:E; [done|].
    apply first_match_head in E as Hf. unfold first_match in Hf.
    apply search_some in Hf as (_ & Hmj & _).
    apply andb_prop in Hmj as [_ Ho]. apply bool_decide_eq_true_1 in Ho.
    cbn [assemble] in Heq. rewrite Nat.sub_0_r, get_substitution_plain in Heq by done.
    replace (Nat.ltb j 0) with false in Heq by (symmetry; apply Nat.ltb_ge; lia).
    rewrite skipn_O in Heq.
    assert (Hs : skipn j s = repl ++ assemble s lit repl (j + List.length lit) ms).
    { apply (f_equal (skipn j)) in Heq. rewrite skipn_app, length_firstn in Heq.
      assert (j <= List.length s).
      { apply (f_equal (@List.length ascii)) in Ho. rewrite length_firstn, length_skipn in Ho.
        destruct lit; [done|]. cbn [List.length] in Ho. lia. }
      replace (j - Nat.min j (List.length s)) with 0 in Heq by lia.
      rewrite skipn_firstn_comm, Nat.sub_diag in Heq. cbn in Heq. rewrite <- Heq. done. }
    apply Hrl. rewrite <- Ho, Hs, <- Hlen, firstn_app, Nat.sub_diag, firstn_all. cbn.
    by rewrite app_nil_r.
  - apply (f_equal (fun l => Z.of_nat (List.length l))) in Heq.
    unfold regex_matches in Heq, Hm. rewrite assemble_exec_length in Heq by (done || lia).
    destruct (exec_all _ _ _ _); [done|]. cbn [List.length] in Heq. nia.
Qed.





(** C8 (counterexample): with a directory named like an image, the longer
    rule rewrites [x.png/y.png] to [x.png/y.webp] first, and the shorter
    rule [x.png -> x.webp] then rewrites the start of that result too. *)
Lemma shorter_rule_rewrites_longer_result :
  rewrite_content [("x.png", "x.webp"); ("x.png/y.png", "x.png/y.webp")]
    (list_ascii_of_string "x.png/y.png") =
  (list_ascii_of_string "x.webp/y.webp", true).
Proof. vm_compute. reflexivity. Qed.

(** C8 (amended): [updateReferences] sorts any table longest [oldRel]
    first (a stable sort, a permutation of the table), so of two rules with
    old paths of different lengths the longer one is applied first.  For a
    longer rule [L -> NL] and a shorter rule [Sh -> NSh], in either order
    of the table, the content a file ends with is the shorter rule applied
    to the longer rule's result [s1]: it is [s1] when the boundary regex of
    [Sh] finds no match in [s1], and otherwise the replacement of those
    matches, which differs from [s1] when [Sh] is not empty and [NSh] is
    another path without [$]. *)
Theorem longest_rule_first (rs : list rule) (Sh NSh L NL : string) (s : text) :
  String.length Sh < String.length L ->
  (Permutation (sort_rules rs) rs /\ Sorted (fun a b => rule_len b <= rule_len a) (sort_rules rs) /\
   (In (L, NL) rs -> In (Sh, NSh) rs ->
    exists A B C, sort_rules rs = A ++ (L, NL) :: B ++ (Sh, NSh) :: C)) /\
  let Sh' := list_ascii_of_string Sh in
  let NSh' := list_ascii_of_string NSh in
  let s1 := fst (rewrite_content [(L, NL)] s) in
  let r := fst (rewrite_content [(Sh, NSh); (L, NL)] s) in
  fst (rewrite_content [(L, NL); (Sh, NSh)] s) = r /\
  r = fst (rewrite_content [(Sh, NSh)] s1) /\
  (regex_matches Sh' s1 = [] -> r = s1) /\
  (regex_matches Sh' s1 <> [] ->
     r = assemble s1 Sh' NSh' 0 (regex_matches Sh' s1) /\
     (Sh <> EmptyString -> ~ In "$"%char NSh' -> NSh <> Sh -> r <> s1)).
Proof.
  intros Hlt. split; [split; [apply sort_rules_perm|split; [apply sort_rules_sorted|]]|].
  { intros HL HS. apply strongly_sorted_before.
    - apply Sorted_StronglySorted; [intros a b c; lia|apply sort_rules_sorted].
    - eapply Permutation_in; [symmetry; apply sort_rules_perm|done].
    - eapply Permutation_in; [symmetry; apply sort_rules_perm|done].
    - done. }
  cbv zeta.
  assert (E1 : sort_rules [(Sh, NSh); (L, NL)] = [(L, NL); (Sh, NSh)]).
  { cbn. replace (Nat.leb (String.length L) (String.length Sh)) with false
      by (symmetry; apply Nat.leb_gt; lia). reflexivity. }
  assert (E2 : sort_rules [(L, NL); (Sh, NSh)] = [(L, NL); (Sh, NSh)]).
  { cbn. replace (Nat.leb (String.length Sh) (String.length L)) with true
      by (symmetry; apply Nat.leb_le; lia). reflexivity. }
  unfold rewrite_content. rewrite E1, E2.
  set (s1 := fst (apply_rules (sort_rules [(L, NL)]) s false)).
  assert (E3 : fst (apply_rules [(L, NL); (Sh, NSh)] s false) =
               fst (apply_rules [(Sh, NSh)] s1 false)).
  { unfold s1. apply apply_rules_cons_fst. }
  rewrite E3. split; [done|]. split; [done|].
  cbn [sort_rules insert_by_len apply_rules]. rewrite js_test_escaped.
  split.
  - intros Hno%regex_matches_nil. by rewrite Hno.
  - intros Hm. destruct (first_match _ s1 0) as [j|] eqn:Hf.
    2: { by apply regex_matches_nil in Hf. }
    rewrite bool_decide_eq_true_2 by done. cbn [fst].
    rewrite js_replace_escaped. split; [done|].
    intros HSh Hd HN. apply assemble_changes; [by destruct Sh|done| |done].
    intros Heq. apply HN. rewrite <- (string_of_list_ascii_of_string NSh), Heq.
    apply string_of_list_ascii_of_string.
Qed.

Lemma longest_rule_first_witness :
  let rs := [("b.png", "b.webp"); ("a/b.png", "a/b.webp")] in
  (Permutation (sort_rules rs) rs /\
   Sorted (fun a b => rule_len b <= rule_len a) (sort_rules rs) /\
   (In ("a/b.png", "a/b.webp") rs -> In ("b.png", "b.webp") rs ->
    exists A B C, sort_rules rs = A ++ ("a/b.png", "a/b.webp") :: B ++ ("b.png", "b.webp") :: C)) /\
  let Sh' := list_ascii_of_string "b.png" in
  let NSh' := list_ascii_of_string "b.webp" in
  let s := list_ascii_of_string "see a/b.png" in
  let s1 := fst (rewrite_content [("a/b.png", "a/b.webp")] s) in
  let r := fst (rewrite_content [("b.png", "b.webp"); ("a/b.png", "a/b.webp")] s) in
  fst (rewrite_content [("a/b.png", "a/b.webp"); ("b.png", "b.webp")] s) = r /\
  r = fst (rewrite_content [("b.png", "b.webp")] s1) /\
  (regex_matches Sh' s1 = [] -> r = s1) /\
  (regex_matches Sh' s1 <> [] ->
     r = assemble s1 Sh' NSh' 0 (regex_matches Sh' s1) /\
     ("b.png" <> EmptyString -> ~ In "$"%char NSh' -> "b.webp" <> "b.png" -> r <> s1)).
Proof.
  apply (longest_rule_first [("b.png", "b.webp"); ("a/b.png", "a/b.webp")]
           "b.png" "b.webp" "a/b.png" "a/b.webp" (list_ascii_of_string "see a/b.png")).
  vm_compute. lia.
Defined.

(* ------------------------------------------------------------------ *)
(** ** Two consecutive runs *)

Lemma rel_segs_app (l sub : list string) : rel_segs l (l ++ sub) = sub.
Proof.
  induction l as [|a l IH]; [by destruct sub|]. cbn. by rewrite String.eqb_refl.
Qed.

Lemma norm_rev_ok (acc l : list string) :
  forallb seg_ok l = true -> norm_rev acc l = rev l ++ acc.
Proof.
  revert acc. induction l as [|a l IH]; intros acc H; [done|].
  cbn in H. apply andb_prop in H as [Ha Hl]. unfold seg_ok in Ha.
  destruct (String.eqb a "") eqn:E1, (String.eqb a ".") eqn:E2, (String.eqb a "..") eqn:E3;
    try discriminate Ha.
  cbn [norm_rev]. rewrite E1, E2, E3. cbn [orb]. rewrite IH by done. cbn. by rewrite <- app_assoc.
Qed.

Lemma under_split (root : list string) (p : path) :
  under root p = true -> exists sub, dir p = root ++ sub.
Proof. unfold under. intros [sub H]%bool_decide_eq_true_1. by exists sub. Qed.

Lemma norm_rev_app (acc l1 l2 : list string) :
  norm_rev acc (l1 ++ l2) = norm_rev (norm_rev acc l1) l2.
Proof.
  revert acc. induction l1 as [|a l1 IH]; intros acc; [done|]. cbn [app norm_rev].
  destruct (_ || _)%bool; [apply IH|].
  destruct (String.eqb a ".."); [|apply IH].
  destruct acc as [|b acc]; [apply IH|]. destruct (String.eqb b ".."); apply IH.
Qed.

Lemma norm_app_plain (l sub : list string) :
  forallb seg_ok sub = true -> norm (l ++ sub) = norm l ++ sub.
Proof.
  intros Hs. unfold norm. rewrite norm_rev_app, norm_rev_ok by done.
  by rewrite rev_app_distr, rev_involutive.
Qed.

Lemma inside_split (root : list string) (p : path) :
  inside root p = true -> exists sub, dir p = root ++ sub /\ forallb seg_ok sub = true.
Proof.
  unfold inside. intros [Hu Hs]%andb_prop. destruct (under_split _ _ Hu) as [sub Hd].
  exists sub. split; [done|]. by rewrite Hd, drop_app_length in Hs.
Qed.

Lemma dest_dir_inside cf (c : path) sub :
  dir c = inputDir cf ++ sub -> forallb seg_ok sub = true ->
  dir (originalFileDest cf c) = norm (outputDir cf) ++ sub.
Proof. intros Hd Hs. cbn. rewrite Hd, rel_segs_app. by apply norm_app_plain. Qed.






Lemma final_dir cf (c : path) : dir (finalNewPath cf c) = dir c.
Proof. reflexivity. Qed.



Lemma update_file_confined tro two rs (w : world) f :
  let w' := update_file tro two rs w f in
  w_config w' = w_config w /\ w_lockfile w' = w_lockfile w /\ w_gitignore w' = w_gitignore w /\
  w_files w' = w_files w /\ w_dirs w' = w_dirs w /\ dom (w_texts w') = dom (w_texts w) /\
  forall k, k <> f -> w_texts w' !! k = w_texts w !! k.
Proof.
  cbv zeta. unfold update_file.
  destruct (tro f); [|by repeat split].
  destruct (w_texts w !! f) as [content|] eqn:Hf; [|by repeat split].
  destruct (rewrite_content rs (list_ascii_of_string content)) as [c' h].
  destruct (h && two f); [|by repeat split].
  cbn. repeat split.
  - rewrite dom_insert_L. apply elem_of_dom_2 in Hf. set_solver.
  - intros k Hk. by rewrite lookup_insert_ne.
Qed.

Lemma fold_update_file_confined tro two rs (L : list path) (w : world) :
  let w' := fold_left (update_file tro two rs) L w in
  w_config w' = w_config w /\ w_lockfile w' = w_lockfile w /\
  w_gitignore w' = w_gitignore w /\ w_files w' = w_files w /\ w_dirs w' = w_dirs w /\
  dom (w_texts w') = dom (w_texts w) /\
  forall k, w_texts w' !! k = w_texts w !! k \/ k ∈ L.
Proof.
  revert w. induction L as [|f L IH]; intros w0; cbv zeta; [by repeat split; auto|].
  cbn [fold_left].
  destruct (IH (update_file tro two rs w0 f)) as (H1 & H2 & H3 & H4 & H5 & H6 & H7).
  destruct (update_file_confined tro two rs w0 f) as (G1 & G2 & G3 & G4 & G5 & G6 & G7).
  repeat split; try congruence.
  intros k. destruct (H7 k) as [->|Hk]; [|right; by right].
  destruct (decide (k = f)) as [->|Hkf]; [right; by left|left; by apply G7].
Qed.

Lemma finish_run_lockfile lwo tro two cf wd (s : St) (w : world) :
  w_lockfile (finish_run lwo tro two cf wd s w) =
    if lwo then Stored (st_lock s) else w_lockfile w.
Proof.
  unfold finish_run. cbv zeta.
  destruct (_ && _)%bool.
  - match goal with |- context [updateReferences ?a ?b ?d ?rs ?w2] =>
      unfold updateReferences;
      destruct (fold_update_file_confined a b rs (text_files d (w_texts w2)) w2) as (_ & -> & _)
    end.
    by destruct lwo.
  - by destruct lwo.
Qed.



Section SecondRun.

Variable codec_ok : gset path -> path -> format -> Z -> bool.
Variable move_ok : gset path -> path -> path -> bool.
Variable cf : settings.


End SecondRun.

Section TwoRuns.

Variable codec_ok : gset path -> path -> format -> Z -> bool.
Variable move_ok : gset path -> path -> path -> bool.
(** [glob] lists, once each, the image files below the input directory by
    plain directory names that the blacklist lets through ([visible]). *)
Variable discover : list string -> list string -> gset path -> list path.
Variable visible : list string -> path -> bool.
Hypothesis discover_spec : forall bl inp fs p,
  p ∈ discover bl inp fs <->
  p ∈ fs /\ inside inp p = true /\ image_ext (ext p) = true /\ visible bl p = true.
Hypothesis discover_nodup : forall bl inp fs, NoDup (discover bl inp fs).

Variable bl : list string.
Variable cf : settings.
(** The backup root, once normalised, is neither inside nor above the
    input root. *)
Hypothesis in_out : ~ inputDir cf `prefix_of` norm (outputDir cf).
Hypothesis out_in : ~ norm (outputDir cf) `prefix_of` inputDir cf.
Variable fs0 : gset path.
Variable lock0 : gmap path path.
Hypothesis lock0_img : forall k v, lock0 !! k = Some v -> image_ext (ext v) = true.

Local Abbreviation D := (discover bl (inputDir cf) fs0).
Local Abbreviation V0 := (lock_values lock0).
Local Abbreviation INV := (run_inv visible bl cf D fs0 lock0).






End TwoRuns.





(* ================================================================== *)
(** * Further properties of the code *)

(* ------------------------------------------------------------------ *)
(** ** [ensureGitIgnore] *)

Lemma list_ascii_of_string_append (a b : string) :
  list_ascii_of_string (String.append a b) = list_ascii_of_string a ++ list_ascii_of_string b.
Proof.
  induction a as [|x a IH]; [done|].
  change (String.append (String x a) b) with (String x (String.append a b)).
  cbn [list_ascii_of_string]. by rewrite IH.
Qed.

Lemma split_acc_piece (c : ascii) (l rest cur : list ascii) :
  ~ In c l -> split_acc c (l ++ c :: rest) cur = (rev cur ++ l) :: split_acc c rest [].
Proof.
  revert cur. induction l as [|a l IH]; intros cur Hc; cbn.
  - by rewrite Ascii.eqb_refl, app_nil_r.
  - destruct (Ascii.eqb_spec a c) as [->|Hne]; [by destruct Hc; left|].
    rewrite IH by (intros ?; apply Hc; by right). cbn. by rewrite <- app_assoc.
Qed.

Lemma split_acc_after_sep (c : ascii) (p l cur : list ascii) :
  exists pieces, split_acc c (p ++ c :: l) cur = pieces ++ split_acc c l [].
Proof.
  revert cur. induction p as [|a p IH]; intros cur; cbn.
  - rewrite Ascii.eqb_refl. by exists [rev cur].
  - destruct (Ascii.eqb a c).
    + destruct (IH []) as [pieces E]. rewrite E. by exists (rev cur :: pieces).
    + apply IH.
Qed.

(** The line [outputDir] is one of the lines of the content
    [ensureGitIgnore] writes. *)
Lemma gitignore_line_present (content out : string) :
  ~ In "010"%char (list_ascii_of_string out) ->
  In out (split_on "010"%char
    (if ends_with_newline content || String.eqb content ""
     then String.append content (String.append out (String "010"%char EmptyString))
     else String.append content (String.append (String "010"%char EmptyString)
            (String.append out (String "010"%char EmptyString))))).
Proof.
  intros Hout. unfold split_on.
  assert (Hline : forall p, (p = [] \/ exists p', p = p' ++ ["010"%char]) ->
            In (list_ascii_of_string out)
              (split_acc "010"%char (p ++ list_ascii_of_string out ++ ["010"%char]) [])).
  { intros p Hp.
    assert (Hlast : split_acc "010"%char (list_ascii_of_string out ++ ["010"%char]) [] =
                    [list_ascii_of_string out; []]) by (by rewrite split_acc_piece).
    destruct Hp as [->|[p' ->]].
    - rewrite app_nil_l, Hlast. by left.
    - rewrite <- app_assoc. cbn [app].
      destruct (split_acc_after_sep "010"%char p' (list_ascii_of_string out ++ ["010"%char]) [])
        as [pieces E].
      rewrite E, Hlast. apply in_or_app. right. by left. }
  apply in_map_iff. exists (list_ascii_of_string out).
  split; [apply string_of_list_ascii_of_string|].
  destruct (ends_with_newline content || String.eqb content "") eqn:Hc;
    rewrite !list_ascii_of_string_append; cbn [list_ascii_of_string].
  - apply Hline. apply orb_true_iff in Hc as [He|He].
    + right. unfold ends_with_newline in He.
      destruct (rev (list_ascii_of_string content)) as [|a r] eqn:Er; [done|].
      apply Ascii.eqb_eq in He. subst a. exists (rev r).
      rewrite <- (rev_involutive (list_ascii_of_string content)), Er. done.
    + left. apply String.eqb_eq in He. by subst.
  - rewrite app_assoc. apply Hline. right. by exists (list_ascii_of_string content).
Qed.

(** X1: [ensureGitIgnore] is idempotent: for an output directory that is
    already trimmed and holds no newline, a second call leaves the world as
    the first call left it (the entry is never appended twice), whatever
    the read and write outcomes. *)
Theorem ensureGitIgnore_idempotent gro gwo (out : string) (w : world) :
  trim out = out -> ~ In "010"%char (list_ascii_of_string out) ->
  ensureGitIgnore gro gwo out (ensureGitIgnore gro gwo out w) = ensureGitIgnore gro gwo out w.
Proof.
  intros Htrim Hout.
  destruct w as [cfg lk gi fs ds tx].
  assert (Hin : forall content,
    existsb (fun line =>
          String.eqb line out ||
          String.eqb line (String.append "/" out) ||
          String.eqb line (String.append out "/") ||
          String.eqb line (String.append "/" (String.append out "/")))
      (map trim (split_on "010"%char
        (if ends_with_newline content || String.eqb content ""
         then String.append content (String.append out (String "010"%char EmptyString))
         else String.append content (String.append (String "010"%char EmptyString)
                (String.append out (String "010"%char EmptyString)))))) = true).
  { intros content. apply existsb_exists. exists out. split.
    - apply in_map_iff. exists out. split; [exact Htrim|].
      by apply (gitignore_line_present content out).
    - by rewrite String.eqb_refl. }
  set (F := ensureGitIgnore gro gwo out).
  set (w0 := mkWorld cfg lk gi fs ds tx).
  assert (Hw : F w0 = w0 \/ (gro = true \/ gi = None) /\ gwo = true /\ exists content,
            (if gro then True else content = ""%string) /\
            F w0 = mkWorld cfg lk (Some
              (if ends_with_newline content || String.eqb content ""
               then String.append content (String.append out (String "010"%char EmptyString))
               else String.append content (String.append (String "010"%char EmptyString)
                      (String.append out (String "010"%char EmptyString))))) fs ds tx).
  { unfold F, w0, ensureGitIgnore. cbn [w_gitignore w_config w_lockfile w_files w_dirs w_texts].
    cbv zeta.
    destruct gi as [c|], gro; cbn iota; try (left; reflexivity);
      match goal with |- context [if existsb ?f ?l then _ else _] => destruct (existsb f l) end;
      try (left; reflexivity); destruct gwo; try (left; reflexivity);
      right; (split; [auto|]); (split; [reflexivity|]); eexists; (split; [|reflexivity]); done. }
  destruct Hw as [Hw|(Hg & -> & content & Hc & Hw)]; rewrite Hw; [exact Hw|].
  unfold F, ensureGitIgnore. cbn [w_gitignore].
  destruct gro.
  - cbv zeta. cbn iota. by rewrite Hin.
  - reflexivity.
Qed.

Lemma ensureGitIgnore_idempotent_witness :
  trim "temp_public" = "temp_public" /\
  ~ In "010"%char (list_ascii_of_string "temp_public") /\
  ensureGitIgnore true true "temp_public" (ensureGitIgnore true true "temp_public" ex_world_run) =
  ensureGitIgnore true true "temp_public" ex_world_run.
Proof.
  assert (H1 : trim "temp_public" = "temp_public") by (vm_compute; reflexivity).
  assert (H2 : ~ In "010"%char (list_ascii_of_string "temp_public"))
    by (vm_compute; intuition discriminate).
  split; [exact H1|]. split; [exact H2|].
  exact (ensureGitIgnore_idempotent true true "temp_public" ex_world_run H1 H2).
Defined.

(** X2: when [.gitignore] can be read and written, [ensureGitIgnore] keeps
    the old content as a prefix of the new one (nothing is removed or
    rewritten) and afterwards one trimmed line is [outputDir],
    [/outputDir], [outputDir/] or [/outputDir/]. *)
Theorem ensureGitIgnore_appends_only (out : string) (w : world) :
  out <> ""%string -> trim out = out -> ~ In "010"%char (list_ascii_of_string out) ->
  exists c', w_gitignore (ensureGitIgnore true true out w) = Some c' /\
    list_ascii_of_string (default ""%string (w_gitignore w)) `prefix_of` list_ascii_of_string c' /\
    exists line, In line (map trim (split_on "010"%char c')) /\
      (line = out \/ line = String.append "/" out \/ line = String.append out "/" \/
       line = String.append "/" (String.append out "/")).
Proof.
  intros Hne Htrim Hout. destruct w as [cfg lk gi fs ds tx].
  unfold ensureGitIgnore. cbn [w_gitignore w_config w_lockfile w_files w_dirs w_texts].
  cbv zeta.
  set (content := match gi with Some c => c | None => ""%string end).
  assert (Hr : match gi with Some c => if true then Some c else None | None => Some ""%string end
               = Some content) by (by destruct gi).
  rewrite Hr.
  destruct (existsb _ (map trim (split_on _ content))) eqn:Hign.
  - destruct gi as [c|]; [|destruct out; [done|]; cbn in Hign; discriminate].
    exists content. split; [done|]. split; [done|].
    apply existsb_exists in Hign as [line [Hin Hl]]. exists line. split; [done|].
    repeat match goal with H : (_ || _)%bool = true |- _ => apply orb_true_iff in H as [H|H] end;
      apply String.eqb_eq in Hl; tauto.
  - eexists. split; [reflexivity|]. split.
    + replace (default ""%string gi) with content by (by destruct gi).
      destruct (_ || _)%bool; rewrite list_ascii_of_string_append; by eexists.
    + exists out. split; [|by left].
      apply in_map_iff. exists out. split; [exact Htrim|].
      by apply (gitignore_line_present content out).
Qed.

Lemma ensureGitIgnore_appends_only_witness :
  exists c', w_gitignore (ensureGitIgnore true true "temp_public" ex_world_run) = Some c' /\
    list_ascii_of_string (default ""%string (w_gitignore ex_world_run))
      `prefix_of` list_ascii_of_string c' /\
    exists line, In line (map trim (split_on "010"%char c')) /\
      (line = "temp_public" \/ line = String.append "/" "temp_public" \/
       line = String.append "temp_public" "/" \/
       line = String.append "/" (String.append "temp_public" "/")).
Proof.
  apply ensureGitIgnore_appends_only.
  - discriminate.
  - vm_compute. reflexivity.
  - vm_compute. intuition discriminate.
Defined.

(* ------------------------------------------------------------------ *)
(** ** The settings of [main] and the prompts *)

Lemma loadConfig_valid (w : world) c :
  loadConfig w = Some c ->
  w_config w = Stored c /\ str_truthy (input c) = true /\ str_truthy (output c) = true /\
  (str_truthy (file_size c) = true -> is_Some (parse_quality (default ""%string (file_size c)))) /\
  (str_truthy (preferred_type c) = true ->
   is_Some (parse_format (default ""%string (preferred_type c)))).
Proof.
  unfold loadConfig. destruct (w_config w) as [| |c']; try discriminate.
  destruct (str_truthy (input c')) eqn:Hi, (str_truthy (output c')) eqn:Ho; cbn; try discriminate.
  destruct (str_truthy (file_size c') && _)%bool eqn:Hf; [discriminate|].
  destruct (str_truthy (preferred_type c') && _)%bool eqn:Hp; [discriminate|].
  intros [= <-]. repeat split; auto.
  - intros Ht. rewrite Ht in Hf. cbn in Hf. apply negb_false_iff, bool_decide_eq_true_1 in Hf. done.
  - intros Ht. rewrite Ht in Hp. cbn in Hp. apply negb_false_iff, bool_decide_eq_true_1 in Hp. done.
Qed.

Section MainPrompt.

Variable codec_ok : gset path -> path -> format -> Z -> bool.
Variable move_ok : gset path -> path -> path -> bool.
Variable discover : list string -> list string -> gset path -> list path.
Variable gro gwo lwo : bool.
Variable tro two : path -> bool.

(** X3: when the configuration sets [preferred_type], [file_size] and
    [working_directory], no question is asked: the run does not depend on
    what the prompt would answer. *)
Theorem complete_config_ignores_prompt (w : world) c (p1 p2 : response) :
  loadConfig w = Some c ->
  str_truthy (preferred_type c) = true -> str_truthy (file_size c) = true ->
  str_truthy (working_directory c) = true ->
  main codec_ok move_ok discover p1 gro gwo lwo tro two w =
  main codec_ok move_ok discover p2 gro gwo lwo tro two w.
Proof.
  intros Hc Hpt Hfs Hwd.
  destruct (loadConfig_valid w c Hc) as (_ & _ & _ & Hq & Hf).
  destruct (Hq Hfs) as [q Eq], (Hf Hpt) as [f Ef].
  destruct (working_directory c) as [d|] eqn:Ed; [|discriminate].
  unfold main. rewrite Hc. cbv zeta. rewrite Hpt, Hfs, Ed, Hwd, Ef, Eq.
  rewrite !(bool_decide_eq_false_2 (Some _ = None)) by done. reflexivity.
Qed.

(** X4: a setting that the configuration leaves unset and the prompt
    leaves unanswered cancels the run: [main] returns (or exits when the
    input directory is missing) with nothing written besides the
    [.gitignore] entry. *)
Theorem cancelled_prompt_returns (w : world) c (p : response) :
  loadConfig w = Some c ->
  (str_truthy (preferred_type c) = false /\ r_format p = None) \/
  (str_truthy (file_size c) = false /\ r_quality p = None) \/
  (str_truthy (working_directory c) = false /\ r_working_directory p = None) ->
  main codec_ok move_ok discover p gro gwo lwo tro two w =
  ((if dir_exists w (parse_dir (default ""%string (input c))) then Returned else Exited),
   ensureGitIgnore gro gwo (default ""%string (output c)) w).
Proof.
  intros Hc Hcan.
  unfold main. rewrite Hc. cbv zeta. rewrite dir_exists_ensureGitIgnore.
  destruct (dir_exists w _); [cbn [negb]|reflexivity].
  destruct (discover _ _ _); [reflexivity|].
  assert (Hcancel : forall (tf : option format) (qs : option quality) (wd : option string),
    (tf = None /\ r_format p = None) \/ (qs = None /\ r_quality p = None) \/
    (wd = None /\ r_working_directory p = None) ->
    (bool_decide (tf = None) || bool_decide (qs = None) || bool_decide (wd = None)) &&
    ((bool_decide (tf = None) && bool_decide (r_format p = None)) ||
     (bool_decide (qs = None) && bool_decide (r_quality p = None)) ||
     (bool_decide (wd = None) && bool_decide (r_working_directory p = None))) = true).
  { intros tf qs wd H.
    destruct H as [[-> ->]|[[-> ->]|[-> ->]]];
      rewrite ?(bool_decide_eq_true_2 (@None _ = None)) by done;
      rewrite ?orb_true_r, ?andb_true_r; reflexivity. }
  rewrite Hcancel; [reflexivity|].
  destruct Hcan as [[H ->]|[[H ->]|[H ->]]]; rewrite H; auto.
Qed.

End MainPrompt.

Lemma complete_config_ignores_prompt_witness :
  main codec_always move_always discover_glob ex_prompt true true true text_always text_always
    ex_world_full =
  main codec_always move_always discover_glob ex_answers true true true text_always text_always
    ex_world_full.
Proof.
  apply (complete_config_ignores_prompt codec_always move_always discover_glob true true true
           text_always text_always ex_world_full ex_full_config ex_prompt ex_answers);
    vm_compute; reflexivity.
Defined.

Lemma cancelled_prompt_returns_witness :
  main codec_always move_always discover_glob ex_prompt true true true text_always text_always
    ex_world_run =
  ((if dir_exists ex_world_run (parse_dir (default ""%string (input ex_config)))
    then Returned else Exited),
   ensureGitIgnore true true (default ""%string (output ex_config)) ex_world_run).
Proof.
  apply (cancelled_prompt_returns codec_always move_always discover_glob true true true
           text_always text_always ex_world_run ex_config ex_prompt).
  - vm_compute. reflexivity.
  - right. left. split; reflexivity.
Defined.

(* ------------------------------------------------------------------ *)
(** ** What the conversion loop does to the disk and the lock data *)

Section LoopEffects.

Variable codec_ok : gset path -> path -> format -> Z -> bool.
Variable move_ok : gset path -> path -> path -> bool.

(** One pass of the loop body: the lock data changes at most at the
    candidate's key, and then to [finalNewPath]; rules are only appended;
    only the candidate and its [.temp] file can leave the disk; only the
    [.temp] file, the backup and [finalNewPath] can appear. *)
Lemma process_file_effects cf vals c (s : St) :
  let s' := (process_file codec_ok move_ok cf vals c s).2 in
  (forall k, k <> c -> st_lock s' !! k = st_lock s !! k) /\
  (st_lock s' !! c = st_lock s !! c \/ st_lock s' !! c = Some (finalNewPath cf c)) /\
  st_rules s `prefix_of` st_rules s' /\
  st_fs s ∖ st_fs s' ⊆ {[c; temp_path c]} /\
  st_fs s' ∖ st_fs s ⊆ {[temp_path c; originalFileDest cf c; finalNewPath cf c]}.
Proof.
  cbv zeta.
  unfold process_file, check_after_lock, convert_candidate, sharp_toFile, fs_move,
    bind, get, put, throw, ret, pathExists, addReplacement, write_lock, set_lock, set_fs,
    push_rules.
  destruct s as [fs lk rs]. cbn.
  repeat (case_match; cbn); simplify_eq; cbn;
    (split; [intros k Hk; rewrite ?lookup_insert_ne by done; done|]);
    (split; [rewrite ?lookup_insert_eq; auto|]);
    (split; [rewrite <- ?app_assoc; first [reflexivity | apply prefix_app_r; reflexivity]|]);
    cbn in *; repeat match goal with H : _ = _ |- _ => clear H end;
    (split; [intros x; destruct (decide (x = c)), (decide (x = temp_path c))|]); set_solver.
Qed.

(** X5: the loop never removes a lock entry and never changes the entry of
    a file it was not given: every key keeps its entry, or is one of the
    candidates and now maps to its [finalNewPath]. *)
Theorem run_loop_lock_monotone cf vals files (s : St) :
  let s' := (run_loop codec_ok move_ok cf vals files s).2 in
  forall k, st_lock s' !! k = st_lock s !! k \/
            (k ∈ files /\ st_lock s' !! k = Some (finalNewPath cf k)).
Proof.
  cbv zeta. revert s. induction files as [|c rest IH]; intros s k; [by left|].
  rewrite run_loop_cons.
  pose proof (process_file_effects cf vals c s) as (Hne & Hc & _).
  destruct (process_file codec_ok move_ok cf vals c s) as [r s1]. cbn in Hne, Hc.
  destruct (run_loop codec_ok move_ok cf vals rest s1) as [os s2] eqn:E. cbn.
  destruct (IH s1 k) as [H|[Hk H]]; rewrite E in H; cbn in H.
  - rewrite H. destruct (decide (k = c)) as [->|Hkc].
    + destruct Hc as [Hc|Hc]; [by left|]. right. split; [by left|done].
    + left. by apply Hne.
  - right. split; [by right|done].
Qed.

(** X6: the only files the loop removes from the disk are candidates and
    their [.temp] files. *)
Theorem run_loop_deletions cf vals files (s : St) :
  st_fs s ∖ st_fs (run_loop codec_ok move_ok cf vals files s).2 ⊆
    list_to_set files ∪ list_to_set (temp_path <$> files).
Proof.
  revert s. induction files as [|c rest IH]; intros s; [cbn; set_solver|].
  rewrite run_loop_cons.
  pose proof (process_file_effects cf vals c s) as (_ & _ & _ & Hd & _).
  destruct (process_file codec_ok move_ok cf vals c s) as [r s1]. cbn in Hd.
  specialize (IH s1).
  destruct (run_loop codec_ok move_ok cf vals rest s1) as [os s2] eqn:E. cbn in IH |- *.
  intros x Hx. destruct (decide (x ∈ st_fs s1)); set_solver.
Qed.

(** X7: the only files the loop creates are the [.temp] files, backups
    ([originalFileDest]) and converted files ([finalNewPath]) of its
    candidates. *)
Theorem run_loop_creations cf vals files (s : St) :
  st_fs (run_loop codec_ok move_ok cf vals files s).2 ∖ st_fs s ⊆
    list_to_set (temp_path <$> files) ∪ list_to_set (originalFileDest cf <$> files) ∪
    list_to_set (finalNewPath cf <$> files).
Proof.
  revert s. induction files as [|c rest IH]; intros s; [cbn; set_solver|].
  rewrite run_loop_cons.
  pose proof (process_file_effects cf vals c s) as (_ & _ & _ & _ & Hd).
  destruct (process_file codec_ok move_ok cf vals c s) as [r s1]. cbn in Hd.
  specialize (IH s1).
  destruct (run_loop codec_ok move_ok cf vals rest s1) as [os s2] eqn:E. cbn in IH |- *.
  intros x Hx. destruct (decide (x ∈ st_fs s1)); set_solver.
Qed.

(** X8: a candidate whose processing throws leaves the disk in the state
    of the step that failed, and the [catch] cleans nothing up: untouched
    when the encoder failed; with the [.temp] file next to the original
    when the encoder succeeded and the first move failed; with the original
    moved to its backup and the [.temp] file left behind when both
    succeeded and the second move failed. *)
Theorem failed_conversion_leftovers cf vals c (s : St) :
  (process_file codec_ok move_ok cf vals c s).1 = None ->
  let fs' := st_fs (process_file codec_ok move_ok cf vals c s).2 in
  let e := sharp_toFile codec_ok c (temp_path c) (targetFormat cf) (qualityValue cf) s in
  let m1 := fs_move move_ok c (originalFileDest cf c) e.2 in
  let m2 := fs_move move_ok (temp_path c) (finalNewPath cf c) m1.2 in
  (e.1 = None /\ fs' = st_fs s) \/
  (e.1 = Some tt /\ m1.1 = None /\ fs' = {[temp_path c]} ∪ st_fs s) \/
  (e.1 = Some tt /\ m1.1 = Some tt /\ m2.1 = None /\
   fs' = {[originalFileDest cf c]} ∪ (({[temp_path c]} ∪ st_fs s) ∖ {[c]})).
Proof.
  cbv zeta.
  unfold process_file, check_after_lock, convert_candidate, sharp_toFile, fs_move,
    bind, get, put, throw, ret, pathExists, addReplacement, write_lock, set_lock, set_fs,
    push_rules.
  destruct s as [fs lk rs]. cbn.
  repeat (case_match; cbn); simplify_eq; cbn; intros; try discriminate; auto 10.
Qed.

(** X9: converting a file that already has the target extension
    re-encodes it in place: the file is still on disk under its own name,
    its original is in the backup directory, and the lock maps it to
    itself. *)
Theorem same_format_reencoded_in_place cf c (s s' : St) d :
  finalNewPath cf c = c ->
  convert_candidate codec_ok move_ok cf c s = (Some d, s') ->
  c ∈ st_fs s' /\ originalFileDest cf c ∈ st_fs s' /\ st_lock s' !! c = Some c.
Proof.
  intros Hf Hc. apply convert_candidate_ok in Hc as (-> & Hin & Hne & Hfs & Hl & _).
  rewrite Hfs, Hl, Hf. split; [set_solver|]. split.
  - apply elem_of_union_r, elem_of_difference. split; [set_solver|].
    rewrite elem_of_singleton. intros Heq.
    assert (Hx : ext (originalFileDest cf c) = ext (temp_path c)) by (by rewrite Heq).
    cbn in Hx. rewrite <- Hf in Hx. cbn in Hx. revert Hx. unfold finalNewPath.
    cbn. destruct (targetFormat cf); discriminate.
  - by rewrite lookup_insert_eq.
Qed.

End LoopEffects.

Lemma failed_conversion_leftovers_witness :
  let s0 := mkSt {[ex_png]} ∅ [] in
  (process_file codec_always move_never ex_cf ∅ ex_png s0).1 = None /\
  let fs' := st_fs (process_file codec_always move_never ex_cf ∅ ex_png s0).2 in
  let e := sharp_toFile codec_always ex_png (temp_path ex_png) (targetFormat ex_cf)
             (qualityValue ex_cf) s0 in
  let m1 := fs_move move_never ex_png (originalFileDest ex_cf ex_png) e.2 in
  let m2 := fs_move move_never (temp_path ex_png) (finalNewPath ex_cf ex_png) m1.2 in
  (e.1 = None /\ fs' = st_fs s0) \/
  (e.1 = Some tt /\ m1.1 = None /\ fs' = {[temp_path ex_png]} ∪ st_fs s0) \/
  (e.1 = Some tt /\ m1.1 = Some tt /\ m2.1 = None /\
   fs' = {[originalFileDest ex_cf ex_png]} ∪ (({[temp_path ex_png]} ∪ st_fs s0) ∖ {[ex_png]})).
Proof.
  assert (H : (process_file codec_always move_never ex_cf ∅ ex_png (mkSt {[ex_png]} ∅ [])).1 = None)
    by (vm_compute; reflexivity).
  split; [exact H|].
  exact (failed_conversion_leftovers codec_always move_never ex_cf ∅ ex_png
           (mkSt {[ex_png]} ∅ []) H).
Defined.

Lemma same_format_reencoded_in_place_witness :
  let s' := (convert_candidate codec_always move_always ex_cf_png ex_png (mkSt {[ex_png]} ∅ [])).2 in
  ex_png ∈ st_fs s' /\ originalFileDest ex_cf_png ex_png ∈ st_fs s' /\
  st_lock s' !! ex_png = Some ex_png.
Proof.
  assert (H1 : (convert_candidate codec_always move_always ex_cf_png ex_png
                  (mkSt {[ex_png]} ∅ [])).1 = Some ConvertNow) by (vm_compute; reflexivity).
  assert (H : convert_candidate codec_always move_always ex_cf_png ex_png (mkSt {[ex_png]} ∅ []) =
              (Some ConvertNow, (convert_candidate codec_always move_always ex_cf_png ex_png
                                   (mkSt {[ex_png]} ∅ [])).2))
    by (rewrite <- H1; apply surjective_pairing).
  exact (same_format_reencoded_in_place codec_always move_always ex_cf_png ex_png
           (mkSt {[ex_png]} ∅ []) _ ConvertNow eq_refl H).
Defined.

(** X10: two candidates of the input directory (paths the glob lists
    below it) never share a backup path, whatever the output root (also
    one such as [../backup]): [path.join(outputDir, path.relative(inputDir,
    file))] is injective on them, so no move overwrites another file's
    backup. *)
Theorem backup_paths_distinct cf (c1 c2 : path) :
  inside (inputDir cf) c1 = true -> inside (inputDir cf) c2 = true ->
  originalFileDest cf c1 = originalFileDest cf c2 -> c1 = c2.
Proof.
  intros Hi1 Hi2 Heq.
  destruct (inside_split _ _ Hi1) as (sub1 & Hd1 & Hs1),
           (inside_split _ _ Hi2) as (sub2 & Hd2 & Hs2).
  pose proof (dest_dir_inside cf c1 sub1 Hd1 Hs1) as E1.
  pose proof (dest_dir_inside cf c2 sub2 Hd2 Hs2) as E2.
  rewrite Heq, E2 in E1. apply app_inv_head in E1. subst sub2.
  destruct c1 as [d1 st1 e1], c2 as [d2 st2 e2]. cbn in *.
  injection Heq as _ -> ->. congruence.
Qed.

Lemma backup_paths_distinct_witness : ex_png = ex_png.
Proof.
  apply (backup_paths_distinct ex_cf_up ex_png ex_png); vm_compute; reflexivity.
Defined.

(* ------------------------------------------------------------------ *)
(** ** The lock file saved at the end of [main] *)

Lemma run_loop_dom_mono codec_ok move_ok cf vals files (s : St) :
  dom (st_lock s) ⊆ dom (st_lock (run_loop codec_ok move_ok cf vals files s).2).
Proof.
  revert s. induction files as [|c rest IH]; intros s; [done|].
  rewrite run_loop_cons.
  pose proof (process_file_effects codec_ok move_ok cf vals c s) as (Hne & Hc & _).
  destruct (process_file codec_ok move_ok cf vals c s) as [r s1]. cbn in Hne, Hc.
  specialize (IH s1).
  destruct (run_loop codec_ok move_ok cf vals rest s1) as [os s2]. cbn in IH |- *.
  etransitivity; [|exact IH].
  intros k Hk. apply elem_of_dom in Hk as [v Hv]. apply elem_of_dom.
  destruct (decide (k = c)) as [->|Hkc].
  - destruct Hc as [-> | ->]; by eexists.
  - rewrite Hne by done. by eexists.
Qed.

Section MainLock.

Variable codec_ok : gset path -> path -> format -> Z -> bool.
Variable move_ok : gset path -> path -> path -> bool.
Variable discover : list string -> list string -> gset path -> list path.
Variable gro gwo lwo : bool.
Variable tro two : path -> bool.

(** X11: whatever [main] leaves in [rlcp.lock] keeps every key of the lock
    data it loaded: entries are never dropped, even those whose files are
    gone (a missing or unreadable lock file loads as [{}]). *)
Theorem saved_lock_keeps_entries prompt (w : world) l' :
  w_lockfile (main codec_ok move_ok discover prompt gro gwo lwo tro two w).2 = Stored l' ->
  dom (loadLockFile w) ⊆ dom l'.
Proof.
  assert (Hg : forall o, w_lockfile (ensureGitIgnore gro gwo o w) = Stored l' ->
                         dom (loadLockFile w) ⊆ dom l').
  { intros o H. destruct (ensureGitIgnore_fields gro gwo o w) as (_ & Hl & _).
    rewrite Hl in H. unfold loadLockFile. by rewrite H. }
  unfold main. destruct (loadConfig w) as [c|]; cbn [snd].
  - cbv zeta. repeat case_match; cbn [snd]; try apply Hg.
    all: rewrite finish_run_lockfile; destruct lwo; [|apply Hg]; intros [= <-];
      match goal with H : run_loop ?a ?b ?cf ?v ?fl ?s0 = (_, ?s) |- _ =>
        pose proof (run_loop_dom_mono a b cf v fl s0) as Hm; rewrite H in Hm; exact Hm end.
  - intros H. unfold loadLockFile. by rewrite H.
Qed.

End MainLock.

(** Reads an equation on the lock file off a boolean check, so that the
    check is evaluated instead of the map. *)
Lemma stored_lock_of_check (x : stored (gmap path path)) (m : gmap path path) :
  match x with Stored l => bool_decide (l = m) | _ => false end = true -> x = Stored m.
Proof. destruct x; try discriminate. intros H. apply bool_decide_eq_true_1 in H. by subst. Qed.

Lemma saved_lock_keeps_entries_witness :
  w_lockfile (main codec_always move_always discover_glob ex_answers true true true
                text_always text_always ex_world_run).2 =
    Stored {[ex_old_png := ex_old_webp; ex_png := ex_webp]} /\
  dom (loadLockFile ex_world_run) ⊆
    dom ({[ex_old_png := ex_old_webp; ex_png := ex_webp]} : gmap path path).
Proof.
  assert (H : w_lockfile (main codec_always move_always discover_glob ex_answers true true true
                text_always text_always ex_world_run).2 =
              Stored {[ex_old_png := ex_old_webp; ex_png := ex_webp]})
    by (apply stored_lock_of_check; vm_compute; reflexivity).
  split; [exact H|].
  exact (saved_lock_keeps_entries codec_always move_always discover_glob true true true
           text_always text_always ex_answers ex_world_run _ H).
Defined.

(* ------------------------------------------------------------------ *)
(** ** [updateReferences] *)



Lemma insert_by_len_filter_eq r l n :
  rule_len r = n ->
  filter (fun a => rule_len a = n) (insert_by_len r l) =
    r :: filter (fun a => rule_len a = n) l.
Proof.
  intros Hr. induction l as [|r' l IH]; cbn [insert_by_len].
  - by rewrite filter_cons_True.
  - destruct (Nat.leb_spec (String.length (fst r')) (String.length (fst r))) as [Hle|Hlt].
    + by rewrite filter_cons_True.
    + rewrite !filter_cons_False by (unfold rule_len in *; lia). exact IH.
Qed.

Lemma insert_by_len_filter_ne r l n :
  rule_len r <> n ->
  filter (fun a => rule_len a = n) (insert_by_len r l) = filter (fun a => rule_len a = n) l.
Proof.
  intros Hr. induction l as [|r' l IH]; cbn [insert_by_len].
  - by rewrite filter_cons_False.
  - case_match.
    + by rewrite filter_cons_False.
    + destruct (decide (rule_len r' = n)).
      * rewrite !filter_cons_True by done. by rewrite IH.
      * rewrite !filter_cons_False by done. exact IH.
Qed.

(** X12: the sort of [updateReferences] reorders the rules without losing
    or duplicating any, puts them in non-increasing [oldRel.length], and
    keeps the original order among rules of equal length (the sort is
    stable). *)
Theorem sort_rules_spec (l : list rule) :
  sort_rules l ≡ₚ l /\
  Sorted (fun a b => String.length (fst b) <= String.length (fst a)) (sort_rules l) /\
  forall n, filter (fun a => String.length (fst a) = n) (sort_rules l) =
            filter (fun a => String.length (fst a) = n) l.
Proof.
  induction l as [|r l (IHp & IHs & IHf)]; cbn [sort_rules]; [by repeat constructor|].
  split; [|split].
  - by rewrite insert_by_len_perm, IHp.
  - by apply (insert_by_len_sorted r).
  - intros n. destruct (decide (rule_len r = n)) as [Hn|Hn].
    + rewrite (insert_by_len_filter_eq r _ n Hn), filter_cons_True by done. by rewrite IHf.
    + rewrite (insert_by_len_filter_ne r _ n Hn), filter_cons_False by done. apply IHf.
Qed.

(** X13: [regex.test(content)] for the regex built from [oldRel] succeeds
    exactly when [oldRel] occurs at some index of the content that is not
    preceded by a character of [[\w\-.]] nor by such a character and a
    slash. *)
Theorem rule_test_iff (old : string) (s : text) :
  js_test (escapeRegExp (list_ascii_of_string old)) s = true <->
  exists i, lookbehind_ok s i = true /\ occurs_at (list_ascii_of_string old) s i = true.
Proof.
  rewrite js_test_escaped. set (lit := list_ascii_of_string old).
  rewrite bool_decide_eq_true. unfold first_match. rewrite Nat.sub_0_r. split.
  - intros [j Hj]. apply search_some in Hj as (_ & Hm & _).
    apply andb_prop in Hm. eauto.
  - intros (i & Hl & Ho).
    destruct (search lit s (S (List.length s)) 0) as [j|] eqn:Hs; [by eexists|].
    exfalso.
    destruct (decide (lit = [])) as [Hnil|Hne].
    + assert (H0 : match_at lit s 0 = true).
      { unfold match_at, occurs_at. rewrite Hnil. reflexivity. }
      rewrite (search_none _ _ _ _ Hs 0) in H0; [done|lia].
    + assert (Hm : match_at lit s i = true) by (unfold match_at; by rewrite Hl, Ho).
      pose proof (match_at_bound _ _ _ Hne Hm) as Hb.
      rewrite (search_none _ _ _ _ Hs i) in Hm; [done|].
      destruct lit; [done|]. cbn in Hb. lia.
Qed.

Lemma apply_rules_no_match (rules : list rule) (content : text) h :
  Forall (fun r => js_test (escapeRegExp (list_ascii_of_string (fst r))) content = false) rules ->
  apply_rules rules content h = (content, h).
Proof.
  induction 1 as [|[o n] rest Hr _ IH]; [done|]. cbn in Hr |- *. by rewrite Hr.
Qed.

(** X14: a text file in which no rule's regex matches is not written:
    [hasChanges] stays [false] and the world is unchanged. *)
Theorem unmatched_file_not_rewritten tro two rs (w : world) f content :
  w_texts w !! f = Some content ->
  Forall (fun r => js_test (escapeRegExp (list_ascii_of_string (fst r)))
                     (list_ascii_of_string content) = false) rs ->
  update_file tro two rs w f = w.
Proof.
  intros Hf Hrs. unfold update_file. destruct (tro f); [|done]. rewrite Hf.
  unfold rewrite_content. rewrite apply_rules_no_match; [reflexivity|].
  by rewrite sort_rules_perm.
Qed.

Lemma unmatched_file_not_rewritten_witness :
  update_file text_always text_always [("img/x.png", "img/x.webp")] ex_world_run ex_index =
  ex_world_run.
Proof.
  apply (unmatched_file_not_rewritten text_always text_always _ ex_world_run ex_index
           "<img src='icons/logo.png'>").
  - vm_compute. reflexivity.
  - repeat constructor.
Defined.

(** X15: [updateReferences] only rewrites text files it globbed: the lock
    file, [.gitignore], images and directories are untouched, no text file
    is created or deleted, and every text file outside the glob keeps its
    content. *)
Theorem updateReferences_confined tro two wd rs (w : world) :
  let w' := updateReferences tro two wd rs w in
  w_lockfile w' = w_lockfile w /\ w_gitignore w' = w_gitignore w /\
  w_files w' = w_files w /\ w_dirs w' = w_dirs w /\ dom (w_texts w') = dom (w_texts w) /\
  forall k, w_texts w' !! k = w_texts w !! k \/ k ∈ text_files wd (w_texts w).
Proof.
  cbv zeta. unfold updateReferences.
  destruct (fold_update_file_confined tro two rs (text_files wd (w_texts w)) w)
    as (_ & H2 & H3 & H4 & H5 & H6 & H7).
  by repeat split.
Qed.
